(** * quadtree.py: Node and QuadTree

    A shallow embedding of [src/quadtree/quadtree.py]: the [Node] class
    (construction, [subdivide], [contains], and the two overridable
    methods) and the [QuadTree] builder ([prune], [traverse], and the
    constructor that runs them).

    Modelling choices, all of them visible in the definitions below:

    - Coordinates are exact rationals ([Q]).  Python evaluates
      [(x1 - x0) / 2] with true division; the model performs the same
      operations without rounding, and compares numbers with [Qle_bool],
      numeric equality being [==] on [Q].
    - A [Node] object owns its [children] list; every slot is filled by
      its own constructor call, so the object graph is a tree and is
      represented by an inductive tree.  Methods that mutate a node
      return the mutated node.
    - The back-reference [self.parent] is only read inside [__init__]
      (for [depth] and [type]); the constructor takes the parent as an
      argument and the tree does not store it.
    - The class attributes [Node.minsize], [QuadTree.maxdepth],
      [QuadTree.leaves] and [QuadTree.allnodes] are process-wide; they
      live in one record [Globals] that is threaded through the builder.
    - [subdivide] recurses for as long as children are not leaves; the
      model bounds the depth of the call stack by a [fuel] argument and
      returns [None] when it is exhausted. *)

From Stdlib Require Import QArith Qround Lqa Lia.
From stdpp Require Import base tactics option list.

Local Open Scope Q_scope.

(** * The program *)

(** ** Rectangles *)

(** The tuple [rect = (x0, z0, x1, z1)]. *)
Record Rect : Type := mkRect { x0 : Q; z0 : Q; x1 : Q; z1 : Q }.

(** Tuple comparison in Python is numeric, component by component. *)
Definition Rect_eq (r s : Rect) : Prop :=
  x0 r == x0 s /\ z0 r == z0 s /\ x1 r == x1 s /\ z1 r == z1 s.

Definition width (r : Rect) : Q := x1 r - x0 r.
Definition height (r : Rect) : Q := z1 r - z0 r.


Definition square (r : Rect) : Prop := 0 <= width r /\ height r == width r.

(** ** Nodes *)

(** [Node.ROOT = 0], [Node.BRANCH = 1], [Node.LEAF = 2]. *)
Inductive NodeType : Type := ROOT | BRANCH | LEAF.

Definition is_leaf (t : NodeType) : bool :=
  match t with LEAF => true | _ => false end.

Unset Elimination Schemes.
Inductive Node : Type :=
  mkNode { depth : nat;
           rect : Rect;
           type : NodeType;
           children : list (option Node) }.
Set Elimination Schemes.

(** Induction over the tree: the statement may be assumed for every
    present child. *)
Definition on_present (P : Node -> Prop) (slot : option Node) : Prop :=
  match slot with Some c => P c | None => True end.

Fixpoint Node_tree_ind (P : Node -> Prop)
    (step : forall d r t cs, Forall (on_present P) cs -> P (mkNode d r t cs))
    (n : Node) : P n :=
  match n with
  | mkNode d r t cs =>
      step d r t cs
        ((fix slots (l : list (option Node)) : Forall (on_present P) l :=
            match l with
            | [] => @List.Forall_nil _ _
            | None :: l' => @List.Forall_cons _ (on_present P) None l' I (slots l')
            | Some c :: l' =>
                @List.Forall_cons _ (on_present P) (Some c) l'
                  (Node_tree_ind P step c) (slots l')
            end) cs)
  end.

(** [Node.__init__(self, parent, rect)].  [minsize] is the value of the
    class attribute [Node.minsize] at the time of the call. *)
Definition Node_init (minsize : Q) (parent : option Node) (r : Rect) : Node :=
  {| depth := match parent with
              | None => 0%nat
              | Some p => (depth p + 1)%nat
              end;
     rect := r;
     type := match parent with
             | None => ROOT
             | Some _ =>
                 if Qle_bool (x1 r - x0 r) minsize then LEAF else BRANCH
             end;
     children := [None; None; None; None] |}.

(** The two methods a subclass overrides.  [spans_feature] receives
    [self] and the candidate rectangle. *)
Class NodeMethods : Type :=
  { spans_feature : Node -> Rect -> bool }.

(** The base class: [spans_feature] returns [False]. *)
Definition Node_base : NodeMethods :=
  {| spans_feature := fun _ _ => false |}.

(** [getinstance(self, rect)] of the base class: [Node(self, rect)]. *)
Definition getinstance (minsize : Q) (self : Node) (r : Rect) : Node :=
  Node_init minsize (Some self) r.

(** The list [rects] built by [subdivide]. *)
Definition quadrants (r : Rect) : list Rect :=
  let h := (x1 r - x0 r) / 2 in
  [ mkRect (x0 r) (z0 r) (x0 r + h) (z0 r + h);
    mkRect (x0 r) (z0 r + h) (x0 r + h) (z1 r);
    mkRect (x0 r + h) (z0 r + h) (x1 r) (z1 r);
    mkRect (x0 r + h) (z0 r) (x1 r) (z0 r + h) ].

(** [self.children[n] = c]. *)
Definition set_child (self : Node) (n : nat) (c : option Node) : Node :=
  {| depth := depth self; rect := rect self; type := type self;
     children := <[n := c]> (children self) |}.

(** The body of the loop [for n in range(len(rects))], run over the
    indices [ns]; [recurse] is the recursive call [subdivide]. *)
Fixpoint subdivide_loop `{NodeMethods} (minsize : Q)
    (recurse : Node -> option Node) (rects : list Rect)
    (ns : list nat) (self : Node) : option Node :=
  match ns with
  | [] => Some self
  | n :: ns' =>
      match rects !! n with
      | None => None
      | Some r =>
          if spans_feature self r then
            match recurse (getinstance minsize self r) with
            | None => None
            | Some child =>
                subdivide_loop minsize recurse rects ns'
                  (set_child self n (Some child))
            end
          else subdivide_loop minsize recurse rects ns' self
      end
  end.

(** [Node.subdivide(self)]. *)
Fixpoint subdivide `{NodeMethods} (fuel : nat) (minsize : Q) (self : Node)
    : option Node :=
  match fuel with
  | O => None
  | S fuel' =>
      if is_leaf (type self) then Some self
      else
        let rects := quadrants (rect self) in
        subdivide_loop minsize (subdivide fuel' minsize) rects
          (seq 0 (length rects)) self
  end.

(** [Node.contains(self, x, z)]. *)
Definition contains (self : Node) (x z : Q) : bool :=
  if Qle_bool (x0 (rect self)) x && Qle_bool x (x1 (rect self))
     && Qle_bool (z0 (rect self)) z && Qle_bool z (z1 (rect self))
  then true else false.

(** ** The builder *)

(** The class attributes shared by all instances. *)
Record Globals : Type :=
  mkGlobals { Node_minsize : Q;
              maxdepth : nat;
              leaves : list Node;
              allnodes : list Node }.

(** Their values when the module is loaded. *)
Definition Globals_init : Globals :=
  {| Node_minsize := 1; maxdepth := 3; leaves := []; allnodes := [] |}.

(** The first loop of [prune], over the slots [cs] starting at slot [n].
    [removals] collects the children to remove; a child is a reference
    to the object sitting in one slot, and is recorded as that slot.
    Returns the children after the recursive calls, [leafcount] and
    [removals]. *)
Definition prune_loop (recurse : Node -> nat * Node)
    : list (option Node) -> nat -> nat -> list nat ->
      list (option Node) * nat * list nat :=
  fix loop cs n leafcount removals :=
    match cs with
    | [] => ([], leafcount, removals)
    | None :: cs' =>
        let '(cs'', lc, rm) := loop cs' (S n) leafcount removals in
        (None :: cs'', lc, rm)
    | Some child :: cs' =>
        let '(k, child') := recurse child in
        let leafcount := (leafcount + k)%nat in
        let removals :=
          if (leafcount =? 0)%nat then removals ++ [n] else removals in
        let '(cs'', lc, rm) := loop cs' (S n) leafcount removals in
        (Some child' :: cs'', lc, rm)
    end.

(** The second loop of [prune]: [node.children.index(item)] is the slot
    of [item], which is then set to [None]. *)
Definition remove_all (removals : list nat) (cs : list (option Node))
    : list (option Node) :=
  fold_left (fun cs n => <[n := None]> cs) removals cs.

(** [QuadTree.prune(self, node)]: the returned count and the node as
    the call leaves it. *)
Fixpoint prune (node : Node) : nat * Node :=
  match node with
  | mkNode d r t cs =>
      if is_leaf t then (1%nat, node)
      else
        let '(cs', leafcount, removals) := prune_loop prune cs 0 0 [] in
        (leafcount, mkNode d r t (remove_all removals cs'))
  end.

(** [QuadTree.traverse(self, node)]. *)
Fixpoint traverse (node : Node) (g : Globals) : Globals :=
  match node with
  | mkNode d r t cs =>
      let g1 := mkGlobals (Node_minsize g) (maxdepth g) (leaves g)
                  (allnodes g ++ [node]) in
      let g2 :=
        if is_leaf t then
          mkGlobals (Node_minsize g1)
            (if (maxdepth g1 <? d)%nat then d else maxdepth g1)
            (leaves g1 ++ [node]) (allnodes g1)
        else g1 in
      fold_left
        (fun g child =>
           match child with
           | Some c => traverse c g
           | None => g
           end) cs g2
  end.

(** [QuadTree.__init__(self, rootnode, minrect)]: the root as the build
    leaves it, and the class attributes afterwards. *)
Definition QuadTree_init `{NodeMethods} (fuel : nat) (rootnode : Node)
    (minrect : Q) (g : Globals) : option (Node * Globals) :=
  let g := mkGlobals minrect (maxdepth g) (leaves g) (allnodes g) in
  match subdivide fuel (Node_minsize g) rootnode with
  | None => None
  | Some root1 =>
      let root2 := snd (prune root1) in
      Some (root2, traverse root2 g)
  end.

(** * Vocabulary of the statements *)

(** ** Reading a tree *)

(** The nodes of a subtree, a node before its children, the children in
    slot order. *)
Fixpoint preorder (n : Node) : list Node :=
  match n with
  | mkNode d r t cs =>
      n :: flat_map
             (fun slot =>
                match slot with
                | Some c => preorder c
                | None => []
                end) cs
  end.

Definition slot_preorder (slot : option Node) : list Node :=
  match slot with Some c => preorder c | None => [] end.

(** The nodes of a list that are classified [LEAF]. *)
Definition leaf_nodes (l : list Node) : list Node :=
  List.filter (fun n => is_leaf (type n)) l.

(** The number of [LEAF] nodes in a subtree, the node itself included. *)
Definition leaf_count (n : Node) : nat := length (leaf_nodes (preorder n)).

Definition slot_leaf_count (slot : option Node) : nat :=
  match slot with Some c => leaf_count c | None => 0%nat end.

(** The update of [QuadTree.maxdepth] that [traverse] makes at one node. *)
Definition raise_maxdepth (m : nat) (n : Node) : nat :=
  if is_leaf (type n) then (if (m <? depth n)%nat then depth n else m) else m.

(** All slots of a node are absent. *)
Definition childless (n : Node) : Prop :=
  Forall (fun slot => slot = None) (children n).

(** The node reached from [n] by following the slots of [path]. *)
Fixpoint subnode (path : list nat) (n : Node) : option Node :=
  match path with
  | [] => Some n
  | i :: path' =>
      match children n !! i with
      | Some (Some c) => subnode path' c
      | _ => None
      end
  end.

(** ** The effect of a traversal *)

Definition traverse_slot (g : Globals) (slot : option Node) : Globals :=
  match slot with Some c => traverse c g | None => g end.

(** What a traversal leaves in the class attributes. *)
Definition after_traverse (l : list Node) (g : Globals) : Globals :=
  mkGlobals (Node_minsize g) (fold_left raise_maxdepth l (maxdepth g))
    (leaves g ++ leaf_nodes l) (allnodes g ++ l).

(** ** The two loops of [prune] *)

(** One slot after the recursive call of the first loop, and the count
    that call returned. *)
Definition prune_slot (slot : option Node) : option Node :=
  match slot with Some c => Some (snd (prune c)) | None => None end.

Definition prune_count (slot : option Node) : nat :=
  match slot with Some c => fst (prune c) | None => 0%nat end.

(** The value of [leafcount] when the iteration of slot [i] tests it:
    the counts of slots [0..i] added up. *)
Definition cum_prune_count (cs : list (option Node)) (i : nat) : nat :=
  sum_list_with prune_count (take (S i) cs).

Definition cum_leaf_count (cs : list (option Node)) (i : nat) : nat :=
  sum_list_with slot_leaf_count (take (S i) cs).

(** The slots the first loop appends to [removals]. *)
Fixpoint removed_slots (cs : list (option Node)) (n leafcount : nat) : list nat :=
  match cs with
  | [] => []
  | None :: cs' => removed_slots cs' (S n) leafcount
  | Some c :: cs' =>
      let leafcount := (leafcount + fst (prune c))%nat in
      (if (leafcount =? 0)%nat then [n] else [])
        ++ removed_slots cs' (S n) leafcount
  end.

(** ** Shapes of trees *)

(** Every [LEAF] node of the subtree has four empty slots: [subdivide]
    returns at once on a leaf, so it never fills them. *)
Definition leaves_childless (n : Node) : Prop :=
  Forall (fun m => type m = LEAF -> childless m) (preorder n).

(** The shape of a node that a build leaves in the sequences: a leaf
    without children, or a non-leaf that has a present child exactly when
    there is a leaf below it. *)
Definition settled (n : Node) : Prop :=
  (type n = LEAF /\ childless n) \/
  (type n <> LEAF /\
   ((exists i c, children n !! i = Some (Some c)) <-> (0 < leaf_count n)%nat)).

(** ** Feature predicates and sample trees *)

(** A subclass whose [spans_feature] returns [True] for every rectangle. *)
Definition everywhere : NodeMethods :=
  {| spans_feature := fun _ _ => true |}.

(** A subclass whose [spans_feature] holds for the rectangles whose
    minimum corner is the origin. *)
Definition origin_only : NodeMethods :=
  {| spans_feature := fun _ r => Qeq_bool (x0 r) 0 && Qeq_bool (z0 r) 0 |}.

(** A subclass for the slot-order asymmetry on a root of side 16: every
    quadrant of side 8 spans a feature, and of the quadrants of side 4
    only those inside (8,8,16,16). *)
Definition upper_right_only : NodeMethods :=
  {| spans_feature := fun _ r =>
       Qle_bool 8 (width r) || (Qle_bool 8 (x0 r) && Qle_bool 8 (z0 r)) |}.



(** A node of depth 1 with the given classification and slots. *)
Definition bare (t : NodeType) (cs : list (option Node)) : Node :=
  mkNode 1 (mkRect 0 0 1 1) t cs.

(** A root with a leaf in slot 2 and leafless branches in slots 0, 1
    and 3. *)
Definition asymmetric_example : Node :=
  mkNode 0 (mkRect 0 0 2 2) ROOT
    [ Some (bare BRANCH [None; None; None; None]);
      Some (bare BRANCH [None; None; None; None]);
      Some (bare LEAF [None; None; None; None]);
      Some (bare BRANCH [None; None; None; None]) ].

(** ** Vocabulary of the further properties *)

(** The fields that a node keeps for life: everything but the slots. *)
Definition same_head (a b : Node) : Prop :=
  depth a = depth b /\ rect a = rect b /\ type a = type b.

(** A node as the constructor leaves it. *)
Definition fresh (n : Node) : Prop := children n = [None; None; None; None].

(** A [spans_feature] that looks at the rectangle only, not at [self]. *)
Definition rect_only (M : NodeMethods) : Prop :=
  forall (s s' : Node) (r : Rect), @spans_feature M s r = @spans_feature M s' r.

(** The classification that [Node.__init__] gives to a node with a
    parent. *)
Definition classify (minsize : Q) (q : Rect) : NodeType :=
  if Qle_bool (x1 q - x0 q) minsize then LEAF else BRANCH.

(** [c] is what [getinstance] makes of quadrant [q] of [n]. *)
Definition child_of (minsize : Q) (n : Node) (q : Rect) (c : Node) : Prop :=
  rect c = q /\ depth c = S (depth n) /\ type c = classify minsize q.

(** A node has four slots, none filled if it is a leaf, and each filled
    slot holds the child for the quadrant of the same index. *)
Definition slots_linked (minsize : Q) (n : Node) : Prop :=
  length (children n) = 4%nat /\
  (type n = LEAF -> childless n) /\
  forall i c,
    children n !! i = Some (Some c) ->
    exists q, quadrants (rect n) !! i = Some q /\ child_of minsize n q c.

(** On a node that is not a leaf, the filled slots are those whose
    quadrant spans a feature. *)
Definition slots_filled `{NodeMethods} (n : Node) : Prop :=
  type n <> LEAF ->
  forall i q,
    quadrants (rect n) !! i = Some q ->
    (spans_feature n q = true <-> exists c, children n !! i = Some (Some c)).

(** What [subdivide] guarantees about slot [i] of a node it was called
    on, [q] being quadrant [i]: some state [s] of the node was asked
    about [q], and the slot holds the subdivided child or nothing. *)
Definition slot_outcome `{NodeMethods} (minsize : Q) (self t : Node)
    (i : nat) (q : Rect) : Prop :=
  exists s,
    same_head s self /\
    ((spans_feature s q = true /\
      exists c, same_head c (getinstance minsize s q) /\
                children t !! i = Some (Some c)) \/
     (spans_feature s q = false /\ children t !! i = children self !! i)).

(** The class attributes agree with each other: the leaves are the
    [LEAF] nodes of the sequence of all nodes, and none is deeper than
    the maximum depth. *)
Definition consistent (g : Globals) : Prop :=
  leaves g = leaf_nodes (allnodes g) /\
  Forall (fun n => (depth n <= maxdepth g)%nat) (leaves g).

(** The point [(x, z)] lies in the closed rectangle [r]: the test of
    [contains]. *)
Definition in_rect (r : Rect) (x z : Q) : Prop :=
  (x0 r <= x /\ x <= x1 r) /\ (z0 r <= z /\ z <= z1 r).

(** ** Tactics *)

(** Settles the invariant on a concrete tree. *)
Ltac solve_leaves_childless :=
  unfold leaves_childless; cbn;
  repeat (first [apply List.Forall_nil | apply List.Forall_cons]); cbn;
  try (let H := fresh in intros H; discriminate H);
  intros _; repeat constructor.

(** Linear arithmetic on rationals, with the halving of [subdivide]
    written as a multiplication. *)
Ltac qlra := unfold Qdiv in *; change (/ 2) with (1 # 2) in *; lra.

(** * Lemmas *)

(** ** Traversal *)

Lemma preorder_unfold n :
  preorder n = n :: flat_map slot_preorder (children n).
Proof. destruct n; reflexivity. Qed.

Lemma leaf_nodes_app l1 l2 :
  leaf_nodes (l1 ++ l2) = leaf_nodes l1 ++ leaf_nodes l2.
Proof. apply List.filter_app. Qed.

Lemma traverse_unfold n g :
  traverse n g =
  fold_left traverse_slot (children n)
    (mkGlobals (Node_minsize g) (raise_maxdepth (maxdepth g) n)
       (leaves g ++ leaf_nodes [n]) (allnodes g ++ [n])).
Proof.
  destruct n as [d r t cs]; cbn [traverse children].
  f_equal. unfold raise_maxdepth, leaf_nodes; cbn.
  destruct (is_leaf t); cbn; [reflexivity|].
  now rewrite app_nil_r.
Qed.

Lemma after_traverse_app l1 l2 g :
  after_traverse l2 (after_traverse l1 g) = after_traverse (l1 ++ l2) g.
Proof.
  unfold after_traverse; cbn.
  now rewrite fold_left_app, leaf_nodes_app, <- !app_assoc.
Qed.

Lemma after_traverse_nil g : after_traverse [] g = g.
Proof. destruct g; unfold after_traverse; cbn. now rewrite !app_nil_r. Qed.

Lemma traverse_slots cs :
  Forall (on_present (fun c => forall g, traverse c g = after_traverse (preorder c) g)) cs ->
  forall g, fold_left traverse_slot cs g = after_traverse (flat_map slot_preorder cs) g.
Proof.
  induction 1 as [|slot cs Hslot _ IH]; intros g; cbn [fold_left flat_map].
  - symmetry; apply after_traverse_nil.
  - rewrite IH, <- after_traverse_app. f_equal.
    destruct slot as [c|]; cbn.
    + apply Hslot.
    + symmetry; apply after_traverse_nil.
Qed.

Lemma traverse_preorder n : forall g, traverse n g = after_traverse (preorder n) g.
Proof.
  induction n as [d r t cs IH] using Node_tree_ind; intros g.
  rewrite traverse_unfold, preorder_unfold; cbn [children].
  rewrite (traverse_slots cs IH).
  change (?n :: ?l) with ([n] ++ l).
  rewrite <- after_traverse_app. reflexivity.
Qed.

(** ** Pruning *)

Lemma prune_unfold n :
  prune n =
  if is_leaf (type n) then (1%nat, n)
  else
    let '(cs', leafcount, removals) := prune_loop prune (children n) 0 0 [] in
    (leafcount, mkNode (depth n) (rect n) (type n) (remove_all removals cs')).
Proof. destruct n; reflexivity. Qed.

Lemma prune_loop_spec cs : forall n lc rm,
  prune_loop prune cs n lc rm =
  (prune_slot <$> cs, (lc + sum_list_with prune_count cs)%nat,
   rm ++ removed_slots cs n lc).
Proof.
  induction cs as [|[c|] cs IH]; intros n lc rm; cbn [prune_loop].
  - cbn. now rewrite Nat.add_0_r, app_nil_r.
  - destruct (prune c) as [k c'] eqn:Hc. rewrite IH.
    cbn [removed_slots fmap list_fmap sum_list_with prune_slot prune_count].
    rewrite Hc; cbn [fst snd].
    destruct (lc + k =? 0)%nat; cbn [app];
      rewrite <- ?app_assoc, Nat.add_assoc; reflexivity.
  - rewrite IH. reflexivity.
Qed.

Lemma cum_prune_count_cons slot cs j :
  cum_prune_count (slot :: cs) (S j) = (prune_count slot + cum_prune_count cs j)%nat.
Proof. reflexivity. Qed.

Lemma cum_prune_count_0 slot cs :
  cum_prune_count (slot :: cs) 0 = prune_count slot.
Proof.
  unfold cum_prune_count. rewrite firstn_cons, take_0. cbn. lia.
Qed.

Lemma elem_of_removed_slots cs : forall n lc i,
  i ∈ removed_slots cs n lc <->
  exists j c, i = (n + j)%nat /\ cs !! j = Some (Some c) /\
              (lc + cum_prune_count cs j = 0)%nat.
Proof.
  induction cs as [|[c|] cs IH]; intros n lc i; cbn [removed_slots].
  - split; [intros H; inversion H|intros (j & c & _ & H & _); discriminate].
  - rewrite elem_of_app, IH. split.
    + intros [Hn|(j & c' & -> & Hj & Hz)].
      * exists 0%nat, c. destruct (Nat.eqb_spec (lc + fst (prune c)) 0);
          [|inversion Hn].
        apply list_elem_of_singleton in Hn as ->.
        rewrite cum_prune_count_0; cbn.
        split; [lia|split; [reflexivity|lia]].
      * exists (S j), c'. rewrite cum_prune_count_cons; cbn [prune_count].
        split; [lia|split; [exact Hj|lia]].
    + intros ([|j] & c' & -> & Hj & Hz).
      * left. rewrite cum_prune_count_0 in Hz; cbn in Hz.
        replace (lc + fst (prune c) =? 0)%nat with true
          by (symmetry; apply Nat.eqb_eq; lia).
        rewrite Nat.add_0_r. apply list_elem_of_singleton; reflexivity.
      * right. exists j, c'. rewrite cum_prune_count_cons in Hz;
          cbn [prune_count] in Hz.
        split; [lia|split; [exact Hj|lia]].
  - rewrite IH. split.
    + intros (j & c' & -> & Hj & Hz). exists (S j), c'.
      rewrite cum_prune_count_cons; cbn [prune_count].
      split; [lia|split; [exact Hj|lia]].
    + intros ([|j] & c' & -> & Hj & Hz); [discriminate|].
      exists j, c'. rewrite cum_prune_count_cons in Hz; cbn [prune_count] in Hz.
      split; [lia|split; [exact Hj|lia]].
Qed.

Lemma remove_all_lookup rm : forall (cs : list (option Node)) i,
  remove_all rm cs !! i =
  if decide (i ∈ rm) then (fun _ => None) <$> cs !! i else cs !! i.
Proof.
  unfold remove_all.
  induction rm as [|n rm IH]; intros cs i; cbn [fold_left].
  - destruct (decide (i ∈ [])) as [H|_]; [inversion H|reflexivity].
  - rewrite IH, list_lookup_insert.
    repeat case_decide; destruct_and?; simplify_eq; try reflexivity;
      try (exfalso;
           match goal with
           | H : _ ∉ _ :: _ |- _ => apply H, elem_of_cons; auto
           end).
    all: try (match goal with
              | H : (?i < length ?cs)%nat |- _ =>
                  apply lookup_lt_is_Some in H as [x ->]; reflexivity
              end).
    match goal with
    | Hin : i ∈ n :: rm, Hne : ¬ (_ ∧ _) |- _ =>
        apply elem_of_cons in Hin as [->|?]; [|contradiction];
        destruct (cs !! n) eqn:Hl; [|reflexivity];
        exfalso; apply Hne; split; [reflexivity|];
        eapply lookup_lt_Some; exact Hl
    end.
Qed.

Lemma is_leaf_true t : is_leaf t = true <-> t = LEAF.
Proof. destruct t; cbn; split; congruence. Qed.

Lemma is_leaf_false t : is_leaf t = false <-> t <> LEAF.
Proof. destruct t; cbn; split; congruence. Qed.

Lemma prune_leaf n : type n = LEAF -> prune n = (1%nat, n).
Proof. intros H. rewrite prune_unfold, H. reflexivity. Qed.

Lemma prune_branch n :
  is_leaf (type n) = false ->
  prune n =
  (sum_list_with prune_count (children n),
   mkNode (depth n) (rect n) (type n)
     (remove_all (removed_slots (children n) 0 0) (prune_slot <$> children n))).
Proof.
  intros H. rewrite prune_unfold, H, prune_loop_spec. reflexivity.
Qed.

Lemma prune_type n : type (snd (prune n)) = type n.
Proof.
  destruct (is_leaf (type n)) eqn:H.
  - apply is_leaf_true in H. now rewrite prune_leaf.
  - now rewrite prune_branch.
Qed.

Lemma prune_depth n : depth (snd (prune n)) = depth n.
Proof.
  destruct (is_leaf (type n)) eqn:H.
  - apply is_leaf_true in H. now rewrite prune_leaf.
  - now rewrite prune_branch.
Qed.

Lemma prune_rect n : rect (snd (prune n)) = rect n.
Proof.
  destruct (is_leaf (type n)) eqn:H.
  - apply is_leaf_true in H. now rewrite prune_leaf.
  - now rewrite prune_branch.
Qed.

(** The slots of a non-leaf node after [prune]. *)
Lemma prune_children_lookup n i :
  is_leaf (type n) = false ->
  children (snd (prune n)) !! i =
  match children n !! i with
  | Some (Some c) =>
      if (cum_prune_count (children n) i =? 0)%nat then Some None
      else Some (Some (snd (prune c)))
  | other => other
  end.
Proof.
  intros H. rewrite prune_branch by exact H. cbn [snd children].
  rewrite remove_all_lookup, list_lookup_fmap.
  case_decide as Hin.
  - apply elem_of_removed_slots in Hin as (j & c & -> & Hj & Hz).
    cbn [Nat.add] in *. rewrite Hj. cbn.
    replace (cum_prune_count (children n) j =? 0)%nat with true
      by (symmetry; apply Nat.eqb_eq; lia).
    reflexivity.
  - destruct (children n !! i) as [[c|]|] eqn:Hi; cbn; try reflexivity.
    destruct (Nat.eqb_spec (cum_prune_count (children n) i) 0) as [Hz|_];
      [|reflexivity].
    exfalso; apply Hin, elem_of_removed_slots.
    exists i, c. split; [reflexivity|split; [exact Hi|lia]].
Qed.

Lemma remove_all_length rm : forall cs : list (option Node),
  length (remove_all rm cs) = length cs.
Proof.
  unfold remove_all. induction rm as [|n rm IH]; intros cs; cbn [fold_left].
  - reflexivity.
  - now rewrite IH, length_insert.
Qed.

Lemma prune_children_length n :
  length (children (snd (prune n))) = length (children n).
Proof.
  destruct (is_leaf (type n)) eqn:H.
  - apply is_leaf_true in H. now rewrite prune_leaf.
  - rewrite prune_branch by exact H. cbn [snd children].
    now rewrite remove_all_length, length_fmap.
Qed.

(** Counting leaves. *)
Lemma leaf_count_slots cs :
  length (leaf_nodes (flat_map slot_preorder cs)) =
  sum_list_with slot_leaf_count cs.
Proof.
  induction cs as [|slot cs IH]; [reflexivity|].
  cbn [flat_map sum_list_with].
  rewrite leaf_nodes_app, length_app, IH.
  destruct slot; reflexivity.
Qed.

Lemma leaf_count_unfold n :
  leaf_count n =
  ((if is_leaf (type n) then 1 else 0) +
   sum_list_with slot_leaf_count (children n))%nat.
Proof.
  unfold leaf_count. rewrite preorder_unfold.
  change (?x :: ?l) with ([x] ++ l).
  rewrite leaf_nodes_app, length_app, leaf_count_slots.
  unfold leaf_nodes; cbn. destruct (is_leaf (type n)); reflexivity.
Qed.

Lemma Forall_flat_map_slots (P : Node -> Prop) cs :
  Forall P (flat_map slot_preorder cs) ->
  Forall (on_present (fun c => Forall P (preorder c))) cs.
Proof.
  induction cs as [|slot cs IH]; cbn [flat_map]; intros H; [constructor|].
  apply Forall_app in H as [H1 H2].
  constructor; [destruct slot; [exact H1|exact I]|auto].
Qed.

Lemma leaves_childless_children n :
  leaves_childless n -> Forall (on_present leaves_childless) (children n).
Proof.
  unfold leaves_childless. rewrite preorder_unfold. intros H.
  apply Forall_cons_1 in H as [_ H].
  now apply Forall_flat_map_slots.
Qed.

Lemma leaves_childless_here n :
  leaves_childless n -> type n = LEAF -> childless n.
Proof.
  unfold leaves_childless. rewrite preorder_unfold. intros H.
  now apply Forall_cons_1 in H as [H _].
Qed.

Lemma childless_sum (f : option Node -> nat) cs :
  f None = 0%nat -> Forall (fun slot => slot = None) cs ->
  sum_list_with f cs = 0%nat.
Proof.
  intros Hf. induction 1 as [|slot cs -> _ IH]; cbn; [reflexivity|].
  now rewrite Hf, IH.
Qed.

Lemma sum_list_with_ext_Forall {A} (f g : A -> nat) l :
  Forall (fun x => f x = g x) l -> sum_list_with f l = sum_list_with g l.
Proof. induction 1 as [|x l Hx _ IH]; cbn; [reflexivity|]. now rewrite Hx, IH. Qed.

(** Under the invariant [prune] returns the number of leaves. *)
Lemma prune_leaf_count n : leaves_childless n -> fst (prune n) = leaf_count n.
Proof.
  induction n as [d r t cs IH] using Node_tree_ind; intros Hwf.
  rewrite leaf_count_unfold; cbn [type children].
  destruct (is_leaf t) eqn:Hleaf.
  - apply is_leaf_true in Hleaf.
    rewrite prune_leaf by exact Hleaf. cbn [fst].
    rewrite childless_sum; [reflexivity|reflexivity|].
    apply (leaves_childless_here _ Hwf Hleaf).
  - rewrite prune_branch by exact Hleaf. cbn [fst children].
    apply sum_list_with_ext_Forall.
    apply leaves_childless_children in Hwf; cbn [children] in Hwf.
    clear Hleaf. induction cs as [|slot cs IHcs]; [constructor|].
    apply Forall_cons_1 in IH as [IH1 IH2].
    apply Forall_cons_1 in Hwf as [Hwf1 Hwf2].
    constructor; [|auto].
    destruct slot as [c|]; cbn in *; auto.
Qed.

Lemma cum_prune_leaf_count cs i :
  Forall (on_present leaves_childless) cs ->
  cum_prune_count cs i = cum_leaf_count cs i.
Proof.
  intros H. unfold cum_prune_count, cum_leaf_count.
  apply sum_list_with_ext_Forall.
  apply Forall_take. eapply Forall_impl; [exact H|].
  intros [c|]; cbn; [apply prune_leaf_count|reflexivity].
Qed.

Lemma cum_count_ge (f : option Node -> nat) (cs : list (option Node)) i j slot :
  (j <= i)%nat -> cs !! j = Some slot ->
  (f slot <= sum_list_with f (take (S i) cs))%nat.
Proof.
  intros Hji Hj. apply sum_list_with_in.
  apply list_elem_of_lookup_2 with j.
  rewrite lookup_take_lt by lia. exact Hj.
Qed.

Lemma subnode_leaf_counted path : forall n l,
  subnode path n = Some l -> type l = LEAF -> (1 <= fst (prune n))%nat.
Proof.
  induction path as [|i path IH]; intros n l Hsub Hl; cbn [subnode] in Hsub.
  - injection Hsub as ->. now rewrite prune_leaf.
  - destruct (children n !! i) as [[c|]|] eqn:Hi; try discriminate.
    destruct (is_leaf (type n)) eqn:Hleaf.
    + apply is_leaf_true in Hleaf. now rewrite prune_leaf.
    + rewrite prune_branch by exact Hleaf. cbn [fst].
      specialize (IH c l Hsub Hl).
      pose proof (sum_list_with_in (Some c) prune_count (children n)
                    (list_elem_of_lookup_2 _ _ _ Hi)) as Hle.
      cbn [prune_count] in Hle. lia.
Qed.

(** ** What [prune] leaves behind *)

Lemma sum_list_with_lookup_ext {A} (f : A -> nat) (l1 : list A) :
  forall l2,
    (forall i, f <$> l1 !! i = f <$> l2 !! i) ->
    sum_list_with f l1 = sum_list_with f l2.
Proof.
  induction l1 as [|a l1 IH]; intros [|b l2] Hext.
  - reflexivity.
  - specialize (Hext 0%nat); discriminate Hext.
  - specialize (Hext 0%nat); discriminate Hext.
  - cbn [sum_list_with]. f_equal.
    + specialize (Hext 0%nat). now injection Hext.
    + apply IH. intros i. exact (Hext (S i)).
Qed.

Lemma cum_prune_count_le cs i :
  (cum_prune_count cs i <= sum_list_with prune_count cs)%nat.
Proof.
  unfold cum_prune_count.
  rewrite <- (take_drop (S i) cs) at 2.
  rewrite sum_list_with_app. lia.
Qed.

(** Under the invariant [prune] keeps the number of leaves. *)
Lemma prune_preserves_leaf_count n :
  leaves_childless n -> leaf_count (snd (prune n)) = leaf_count n.
Proof.
  induction n as [d r t cs IH] using Node_tree_ind; intros Hwf.
  destruct (is_leaf t) eqn:Hleaf.
  - apply is_leaf_true in Hleaf. now rewrite prune_leaf.
  - rewrite !leaf_count_unfold, prune_type. f_equal.
    apply sum_list_with_lookup_ext. intros i.
    rewrite prune_children_lookup by exact Hleaf. cbn [children].
    pose proof (leaves_childless_children _ Hwf) as Hcs; cbn [children] in Hcs.
    destruct (cs !! i) as [[c|]|] eqn:Hi; try reflexivity.
    pose proof (Forall_lookup_1 _ _ _ _ Hcs Hi) as Hc; cbn in Hc.
    pose proof (Forall_lookup_1 _ _ _ _ IH Hi) as IHc; cbn in IHc.
    destruct (Nat.eqb_spec (cum_prune_count cs i) 0) as [Hz|_]; cbn.
    + pose proof (cum_count_ge prune_count cs i i _ (le_n i) Hi) as Hle.
      fold (cum_prune_count cs i) in Hle. cbn [prune_count] in Hle.
      rewrite <- (prune_leaf_count c Hc). f_equal. lia.
    + now rewrite IHc.
Qed.

Lemma sum_list_with_pos {A} (f : A -> nat) (l : list A) :
  (0 < sum_list_with f l)%nat -> exists i a, l !! i = Some a /\ (0 < f a)%nat.
Proof.
  induction l as [|a l IH]; cbn [sum_list_with]; [lia|]. intros Hpos.
  destruct (Nat.eq_dec (f a) 0%nat) as [Hz|Hnz].
  - destruct IH as (i & b & Hi & Hb); [lia|]. exists (S i), b. auto.
  - exists 0%nat, a. split; [reflexivity|lia].
Qed.

Lemma prune_settled_here n :
  leaves_childless n -> settled (snd (prune n)).
Proof.
  intros Hwf. destruct (is_leaf (type n)) eqn:Hleaf.
  - left. apply is_leaf_true in Hleaf. rewrite prune_leaf by exact Hleaf.
    split; [exact Hleaf|]. now apply leaves_childless_here.
  - right. rewrite prune_type. split; [now apply is_leaf_false|].
    rewrite (prune_preserves_leaf_count _ Hwf), <- (prune_leaf_count _ Hwf).
    rewrite prune_branch by exact Hleaf. cbn [fst].
    split.
    + intros (i & c' & Hi).
      rewrite <- (prune_branch n Hleaf) in Hi.
      rewrite prune_children_lookup in Hi by exact Hleaf.
      destruct (children n !! i) as [[c|]|] eqn:Hci; try discriminate.
      destruct (Nat.eqb_spec (cum_prune_count (children n) i) 0) as [|Hnz];
        [discriminate|].
      pose proof (cum_prune_count_le (children n) i). lia.
    + intros Hpos. rewrite <- (prune_branch n Hleaf).
      (* the first slot with a leaf below it stays *)
      assert (Hfirst : exists i c, children n !! i = Some (Some c) /\
                                   cum_prune_count (children n) i <> 0%nat).
      { apply sum_list_with_pos in Hpos as (i & [c|] & Hi & Hc);
          cbn [prune_count] in Hc; [|lia].
        exists i, c. split; [exact Hi|].
        pose proof (cum_count_ge prune_count _ i i _ (le_n i) Hi) as Hle.
        fold (cum_prune_count (children n) i) in Hle.
        cbn [prune_count] in Hle. lia. }
      destruct Hfirst as (i & c & Hi & Hnz).
      exists i, (snd (prune c)).
      rewrite prune_children_lookup, Hi by exact Hleaf.
      now destruct (Nat.eqb_spec (cum_prune_count (children n) i) 0).
Qed.

Lemma Forall_flat_map_lookup (P : Node -> Prop) (cs' : list (option Node)) :
  (forall i c', cs' !! i = Some (Some c') -> Forall P (preorder c')) ->
  Forall P (flat_map slot_preorder cs').
Proof.
  induction cs' as [|slot cs' IH]; intros H; cbn [flat_map]; [constructor|].
  apply Forall_app. split.
  - destruct slot as [c'|]; [|constructor]. exact (H 0%nat c' eq_refl).
  - apply IH. intros i c' Hi. exact (H (S i) c' Hi).
Qed.

Lemma prune_settled n :
  leaves_childless n -> Forall settled (preorder (snd (prune n))).
Proof.
  induction n as [d r t cs IH] using Node_tree_ind; intros Hwf.
  pose proof (prune_settled_here _ Hwf) as Hhere.
  rewrite preorder_unfold. constructor; [exact Hhere|].
  apply Forall_flat_map_lookup. intros i c' Hi.
  pose proof (leaves_childless_children _ Hwf) as Hcs; cbn [children] in Hcs.
  destruct (is_leaf t) eqn:Hleaf.
  - apply is_leaf_true in Hleaf.
    rewrite prune_leaf in Hi by exact Hleaf. cbn [snd children] in Hi.
    pose proof (leaves_childless_here _ Hwf Hleaf) as Hnone.
    unfold childless in Hnone. cbn [children] in Hnone.
    rewrite Forall_forall in Hnone.
    specialize (Hnone _ (list_elem_of_lookup_2 _ _ _ Hi)). discriminate.
  - rewrite prune_children_lookup in Hi by exact Hleaf. cbn [children] in Hi.
    destruct (cs !! i) as [[c|]|] eqn:Hci; try discriminate.
    destruct (cum_prune_count cs i =? 0)%nat; [discriminate|].
    injection Hi as <-.
    pose proof (Forall_lookup_1 _ _ _ _ Hcs Hci) as Hc; cbn in Hc.
    pose proof (Forall_lookup_1 _ _ _ _ IH Hci) as IHc; cbn in IHc.
    auto.
Qed.

(** ** Subdivision *)

Lemma getinstance_preorder m self r :
  preorder (getinstance m self r) = [getinstance m self r].
Proof. reflexivity. Qed.

Lemma Forall_flat_map_insert (P : Node -> Prop) (cs : list (option Node)) :
  forall n slot,
    Forall P (flat_map slot_preorder cs) ->
    Forall P (slot_preorder slot) ->
    Forall P (flat_map slot_preorder (<[n := slot]> cs)).
Proof.
  induction cs as [|s cs IH]; intros n slot Hcs Hslot; [exact Hcs|].
  cbn [flat_map] in Hcs. apply Forall_app in Hcs as [Hs Hcs].
  destruct n as [|n]; cbn [flat_map]; apply Forall_app; split; auto.
Qed.

Section SubdivideInvariant.
Context `{NodeMethods}.
Variable P : Node -> Prop.
Variable minsize : Q.

(** [P] looks at one node; filling a slot of a non-leaf node keeps it,
    and a node that satisfies it hands it on to the children that
    [getinstance] creates for its quadrants. *)
Hypothesis P_set_child :
  forall self n c, type self <> LEAF -> P self -> P (set_child self n c).
Hypothesis P_getinstance :
  forall self r,
    P self -> r ∈ quadrants (rect self) -> P (getinstance minsize self r).

Lemma subdivide_loop_Forall (recurse : Node -> option Node) :
  (forall c t, recurse c = Some t ->
               Forall P (preorder c) -> Forall P (preorder t)) ->
  forall ns self t,
    type self <> LEAF ->
    subdivide_loop minsize recurse (quadrants (rect self)) ns self = Some t ->
    Forall P (preorder self) -> Forall P (preorder t).
Proof.
  intros Hrec. induction ns as [|n ns IH]; intros self t Hty Hrun Hself;
    cbn [subdivide_loop] in Hrun.
  - now injection Hrun as <-.
  - destruct (quadrants (rect self) !! n) as [r|] eqn:Hr; [|discriminate].
    destruct (spans_feature self r); [|eauto].
    destruct (recurse (getinstance minsize self r)) as [child|] eqn:Hc;
      [|discriminate].
    assert (Hhere : P self)
      by (rewrite preorder_unfold in Hself; now apply Forall_cons_1 in Hself).
    assert (Hchild : Forall P (preorder child)).
    { apply (Hrec _ _ Hc). rewrite getinstance_preorder.
      constructor; [|constructor].
      apply P_getinstance; [exact Hhere|].
      eapply list_elem_of_lookup_2; exact Hr. }
    apply (IH (set_child self n (Some child)) t); [exact Hty|exact Hrun|].
    rewrite preorder_unfold. constructor.
    + now apply P_set_child.
    + cbn [set_child children]. apply Forall_flat_map_insert; [|exact Hchild].
      rewrite preorder_unfold in Hself. now apply Forall_cons_1 in Hself.
Qed.

Lemma subdivide_Forall fuel : forall self t,
  subdivide fuel minsize self = Some t ->
  Forall P (preorder self) -> Forall P (preorder t).
Proof.
  induction fuel as [|fuel IH]; intros self t Hrun Hself;
    cbn [subdivide] in Hrun; [discriminate|].
  destruct (is_leaf (type self)) eqn:Hleaf.
  - now injection Hrun as <-.
  - apply is_leaf_false in Hleaf.
    eapply subdivide_loop_Forall; eauto.
Qed.
End SubdivideInvariant.

(** [subdivide] builds trees whose leaves have no children. *)
Lemma subdivide_leaves_childless `{NodeMethods} fuel minsize self t :
  subdivide fuel minsize self = Some t ->
  leaves_childless self -> leaves_childless t.
Proof.
  apply subdivide_Forall.
  - intros s n c Hty _ Hleaf. cbn in Hleaf. contradiction.
  - intros s r _ _ _. repeat constructor.
Qed.

Lemma Node_init_leaves_childless m parent r :
  leaves_childless (Node_init m parent r).
Proof. repeat constructor. Qed.




(** ** Subdivision under a predicate that holds everywhere *)

Lemma quadrants_width r :
  Forall (fun q => width q == width r / 2) (quadrants r).
Proof.
  unfold quadrants, width.
  repeat (apply List.Forall_cons); try apply List.Forall_nil;
    cbn [x0 x1]; unfold Qdiv; change (/ 2) with (1 # 2); ring.
Qed.

(** One call of [subdivide] on a fresh non-leaf node fills the four
    slots, provided the recursive calls return; [R] is what those calls
    guarantee about the children. *)
Lemma everywhere_subdivide (R : Node -> Prop) (fuel : nat) (m : Q) (self : Node) :
  is_leaf (type self) = false ->
  children self = [None; None; None; None] ->
  (forall parent r,
     depth parent = depth self ->
     r ∈ quadrants (rect self) ->
     exists t, @subdivide everywhere fuel m (getinstance m parent r) = Some t /\ R t) ->
  exists t0 t1 t2 t3,
    @subdivide everywhere (S fuel) m self =
      Some (mkNode (depth self) (rect self) (type self)
              [Some t0; Some t1; Some t2; Some t3]) /\
    R t0 /\ R t1 /\ R t2 /\ R t3.
Proof.
  destruct self as [d r t cs]; cbn [type children depth rect].
  intros Hleaf -> Hrec.
  assert (Hq : forall i q, quadrants r !! i = Some q -> q ∈ quadrants r)
    by (intros i q; apply list_elem_of_lookup_2).
  cbn [subdivide type]. rewrite Hleaf. cbn zeta.
  cbn [rect length quadrants seq subdivide_loop lookup list_lookup spans_feature everywhere].
  set (s0 := mkNode d r t [None; None; None; None]).
  destruct (Hrec s0 _ eq_refl (Hq 0%nat _ eq_refl)) as (t0 & -> & R0).
  set (s1 := set_child s0 0 (Some t0)).
  destruct (Hrec s1 _ eq_refl (Hq 1%nat _ eq_refl)) as (t1 & -> & R1).
  set (s2 := set_child s1 1 (Some t1)).
  destruct (Hrec s2 _ eq_refl (Hq 2%nat _ eq_refl)) as (t2 & -> & R2).
  set (s3 := set_child s2 2 (Some t2)).
  destruct (Hrec s3 _ eq_refl (Hq 3%nat _ eq_refl)) as (t3 & -> & R3).
  exists t0, t1, t2, t3. repeat split; assumption.
Qed.

Lemma getinstance_leaf (m : Q) (parent : Node) (r : Rect) :
  width r <= m -> type (getinstance m parent r) = LEAF.
Proof.
  unfold width. intros H. cbn.
  apply Qle_bool_iff in H. now rewrite H.
Qed.

Lemma getinstance_branch (m : Q) (parent : Node) (r : Rect) :
  m < width r -> type (getinstance m parent r) = BRANCH.
Proof.
  unfold width. intros H. cbn.
  destruct (Qle_bool (x1 r - x0 r) m) eqn:E; [|reflexivity].
  apply Qle_bool_iff in E. exfalso. lra.
Qed.

Lemma subdivide_leaf `{NodeMethods} (fuel : nat) (m : Q) (self : Node) :
  type self = LEAF -> subdivide (S fuel) m self = Some self.
Proof. intros H0. cbn [subdivide]. now rewrite H0. Qed.






(** * Properties of the specification *)

(** ** [prune] *)

(** C1.  For a node that is not a leaf (in a tree whose leaves have no
    children, as [subdivide] builds them), [prune] returns the number of
    [LEAF] nodes of the subtree; a present child in slot [i] is absent
    afterwards exactly when the leaf count added up over slots [0..i] is
    zero, and otherwise the slot holds the pruned child.  Hence a removed
    child has no leaf below it, and neither has any child in an earlier
    slot. *)
Theorem prune_count_and_removals (node : Node) :
  type node <> LEAF ->
  leaves_childless node ->
  fst (prune node) = leaf_count node /\
  forall i c,
    children node !! i = Some (Some c) ->
    (children (snd (prune node)) !! i = Some None <->
     cum_leaf_count (children node) i = 0%nat) /\
    (cum_leaf_count (children node) i <> 0%nat ->
     children (snd (prune node)) !! i = Some (Some (snd (prune c)))) /\
    (children (snd (prune node)) !! i = Some None ->
     leaf_count c = 0%nat /\
     forall j c', (j < i)%nat -> children node !! j = Some (Some c') ->
                  leaf_count c' = 0%nat).
Proof.
  intros Hty Hwf. split; [now apply prune_leaf_count|].
  intros i c Hi.
  apply is_leaf_false in Hty.
  pose proof (prune_children_lookup node i Hty) as Hlook.
  rewrite Hi in Hlook.
  rewrite (cum_prune_leaf_count _ _ (leaves_childless_children _ Hwf)) in Hlook.
  assert (Hiff : children (snd (prune node)) !! i = Some None <->
                 cum_leaf_count (children node) i = 0%nat).
  { rewrite Hlook.
    destruct (Nat.eqb_spec (cum_leaf_count (children node) i) 0) as [Hz|Hnz];
      split; intros H; congruence. }
  split; [exact Hiff|split].
  - intros Hnz. rewrite Hlook.
    now destruct (Nat.eqb_spec (cum_leaf_count (children node) i) 0).
  - intros Hrm. apply Hiff in Hrm. split.
    + pose proof (cum_count_ge slot_leaf_count _ i i _ (le_n i) Hi) as Hle.
      fold (cum_leaf_count (children node) i) in Hle.
      cbn [slot_leaf_count] in Hle. lia.
    + intros j c' Hj Hc'.
      assert (Hji : (j <= i)%nat) by lia.
      pose proof (cum_count_ge slot_leaf_count _ i j _ Hji Hc') as Hle.
      fold (cum_leaf_count (children node) i) in Hle.
      cbn [slot_leaf_count] in Hle. lia.
Qed.

Lemma prune_count_and_removals_witness :
  type asymmetric_example <> LEAF /\
  leaves_childless asymmetric_example /\
  fst (prune asymmetric_example) = leaf_count asymmetric_example /\
  forall i c,
    children asymmetric_example !! i = Some (Some c) ->
    (children (snd (prune asymmetric_example)) !! i = Some None <->
     cum_leaf_count (children asymmetric_example) i = 0%nat) /\
    (cum_leaf_count (children asymmetric_example) i <> 0%nat ->
     children (snd (prune asymmetric_example)) !! i = Some (Some (snd (prune c)))) /\
    (children (snd (prune asymmetric_example)) !! i = Some None ->
     leaf_count c = 0%nat /\
     forall j c', (j < i)%nat ->
                  children asymmetric_example !! j = Some (Some c') ->
                  leaf_count c' = 0%nat).
Proof.
  assert (H1 : type asymmetric_example <> LEAF) by (cbn; discriminate).
  assert (H2 : leaves_childless asymmetric_example)
    by solve_leaves_childless.
  split; [exact H1|split; [exact H2|]].
  exact (prune_count_and_removals asymmetric_example H1 H2).
Defined.

(** The slot-order asymmetry on that node: slots 0 and 1 are removed,
    the leafless branch in slot 3 stays. *)
Example prune_asymmetric_example :
  prune asymmetric_example =
  (1%nat,
   mkNode 0 (mkRect 0 0 2 2) ROOT
     [ None; None;
       Some (bare LEAF [None; None; None; None]);
       Some (bare BRANCH [None; None; None; None]) ]).
Proof. reflexivity. Qed.

(** C6.  [prune] returns 1 on a leaf and leaves it as it is, and every
    leaf of a tree is found at the same place after [prune]. *)
Theorem prune_keeps_leaves (node : Node) (path : list nat) (l : Node) :
  subnode path node = Some l ->
  type l = LEAF ->
  prune l = (1%nat, l) /\ subnode path (snd (prune node)) = Some l.
Proof.
  intros Hsub Hl. split; [now apply prune_leaf|].
  revert node Hsub.
  induction path as [|i path IH]; intros n Hsub; cbn [subnode] in *.
  - injection Hsub as ->. now rewrite prune_leaf.
  - destruct (children n !! i) as [[c|]|] eqn:Hi; try discriminate.
    destruct (is_leaf (type n)) eqn:Hleaf.
    + apply is_leaf_true in Hleaf. rewrite prune_leaf by exact Hleaf.
      cbn [snd]. now rewrite Hi.
    + rewrite prune_children_lookup, Hi by exact Hleaf.
      pose proof (subnode_leaf_counted _ _ _ Hsub Hl) as Hpos.
      pose proof (cum_count_ge prune_count _ i i _ (le_n i) Hi) as Hle.
      fold (cum_prune_count (children n) i) in Hle.
      cbn [prune_count] in Hle.
      destruct (Nat.eqb_spec (cum_prune_count (children n) i) 0) as [Hz|_];
        [lia|].
      now apply IH.
Qed.

Lemma prune_keeps_leaves_witness :
  subnode [2%nat] asymmetric_example = Some (bare LEAF [None; None; None; None]) /\
  type (bare LEAF [None; None; None; None]) = LEAF /\
  prune (bare LEAF [None; None; None; None]) =
    (1%nat, bare LEAF [None; None; None; None]) /\
  subnode [2%nat] (snd (prune asymmetric_example)) =
    Some (bare LEAF [None; None; None; None]).
Proof.
  assert (H1 : subnode [2%nat] asymmetric_example =
               Some (bare LEAF [None; None; None; None])) by reflexivity.
  assert (H2 : type (bare LEAF [None; None; None; None]) = LEAF) by reflexivity.
  split; [exact H1|split; [exact H2|]].
  exact (prune_keeps_leaves asymmetric_example [2%nat] _ H1 H2).
Defined.

(** ** [traverse] *)

(** C9.  A second [traverse] of the same tree appends the pre-order
    listing once more: the sequence of all nodes grows by two consecutive
    copies of it, the sequence of leaves by two copies of its leaves, and
    the class attributes after the second call differ from those after
    the first. *)
Theorem traverse_twice_duplicates (node : Node) (g : Globals) :
  let g1 := traverse node g in
  let g2 := traverse node g1 in
  allnodes g1 = allnodes g ++ preorder node /\
  leaves g1 = leaves g ++ leaf_nodes (preorder node) /\
  allnodes g2 = allnodes g ++ preorder node ++ preorder node /\
  leaves g2 = leaves g ++ leaf_nodes (preorder node) ++ leaf_nodes (preorder node) /\
  g2 <> g1.
Proof.
  cbn zeta. rewrite !traverse_preorder.
  unfold after_traverse; cbn [allnodes leaves].
  rewrite <- !app_assoc.
  repeat split.
  intros Heq. apply (f_equal allnodes) in Heq. cbn [allnodes] in Heq.
  apply (f_equal (@length Node)) in Heq.
  rewrite !length_app, preorder_unfold in Heq. cbn [length] in Heq. lia.
Qed.

(** ** [contains] *)

(** C8.  [contains] holds exactly for the points of the closed
    rectangle; on (0,0,4,4) it holds for (0,0), (4,4) and (2,2) and fails
    for (5,5) and (-1,2). *)
Theorem contains_closed_rectangle :
  (forall (node : Node) (x z : Q),
     contains node x z = true <->
     (x0 (rect node) <= x /\ x <= x1 (rect node)) /\
     (z0 (rect node) <= z /\ z <= z1 (rect node))) /\
  (forall d t cs,
     let node := mkNode d (mkRect 0 0 4 4) t cs in
     contains node 0 0 = true /\
     contains node 4 4 = true /\
     contains node 2 2 = true /\
     contains node 5 5 = false /\
     contains node (-1) 2 = false).
Proof.
  split.
  - intros node x z. unfold contains.
    rewrite <- !Qle_bool_iff.
    destruct (Qle_bool (x0 (rect node)) x), (Qle_bool x (x1 (rect node))),
      (Qle_bool (z0 (rect node)) z), (Qle_bool z (z1 (rect node)));
      cbn; intuition congruence.
  - intros d t cs. cbn. repeat split.
Qed.

(** ** Rectangles built by [subdivide] *)




(** ** The root *)

(** C10.  A node built without a parent is classified [ROOT] whatever
    its width; so [subdivide] on it never takes the leaf exit and always
    runs the loop over the four quadrants; and when its width is at most
    the minimum size (a minimum size that is not negative) and the
    predicate holds everywhere, the call fills the four slots with
    childless leaves of depth 1. *)
Theorem root_always_subdivides :
  (forall (m : Q) (r : Rect), type (Node_init m None r) = ROOT) /\
  (forall (M : NodeMethods) (fuel : nat) (m m0 : Q) (r : Rect),
     subdivide (S fuel) m (Node_init m0 None r) =
     subdivide_loop m (subdivide fuel m) (quadrants r)
       [0; 1; 2; 3]%nat (Node_init m0 None r)) /\
  (forall (fuel : nat) (m m0 : Q) (r : Rect),
     0 <= m ->
     width r <= m ->
     exists c0 c1 c2 c3,
       @subdivide everywhere (S (S fuel)) m (Node_init m0 None r) =
         Some (mkNode 0 r ROOT [Some c0; Some c1; Some c2; Some c3]) /\
       Forall (fun c => type c = LEAF /\ depth c = 1%nat /\ childless c)
         [c0; c1; c2; c3]).
Proof.
  split; [reflexivity|split; [reflexivity|]].
  intros fuel m m0 r Hm Hw.
  destruct (everywhere_subdivide
              (fun c => type c = LEAF /\ depth c = 1%nat /\ childless c)
              (S fuel) m (Node_init m0 None r) eq_refl eq_refl)
    as (c0 & c1 & c2 & c3 & Hrun & H0 & H1 & H2 & H3).
  - intros parent q Hd Hq.
    exists (getinstance m parent q).
    assert (Hleaf : type (getinstance m parent q) = LEAF).
    { apply getinstance_leaf.
      pose proof (quadrants_width r) as Hqw.
      rewrite Forall_forall in Hqw. specialize (Hqw q Hq).
      rewrite Hqw. qlra. }
    split; [now apply subdivide_leaf|].
    split; [exact Hleaf|split].
    + cbn. rewrite Hd. reflexivity.
    + repeat constructor.
  - exists c0, c1, c2, c3. split; [exact Hrun|].
    repeat (apply List.Forall_cons); try apply List.Forall_nil; assumption.
Qed.

Lemma root_always_subdivides_witness :
  0 <= 4 /\
  width (mkRect 0 0 4 4) <= 4 /\
  exists c0 c1 c2 c3,
    @subdivide everywhere 2 4 (Node_init 1 None (mkRect 0 0 4 4)) =
      Some (mkNode 0 (mkRect 0 0 4 4) ROOT [Some c0; Some c1; Some c2; Some c3]) /\
    Forall (fun c => type c = LEAF /\ depth c = 1%nat /\ childless c)
      [c0; c1; c2; c3].
Proof.
  assert (H1 : 0 <= 4) by lra.
  assert (H2 : width (mkRect 0 0 4 4) <= 4) by (unfold width; cbn; lra).
  split; [exact H1|split; [exact H2|]].
  exact (proj2 (proj2 root_always_subdivides) 0%nat 4 1 (mkRect 0 0 4 4) H1 H2).
Defined.

(** ** Whole builds *)

(** C2, amended.  Root (0,0,8,8), minimum size 4, features only at the
    origin: the root computes four quadrants, slot 0 receives a leaf of
    depth 1 over (0,0,4,4), the other slots stay absent, the leaf
    sequence is that one leaf, and the maximum depth keeps its starting
    value 3, which the depth 1 of the leaf does not exceed. *)
Theorem origin_scenario (fuel : nat) :
  let root := Node_init 1 None (mkRect 0 0 8 8) in
  length (quadrants (rect root)) = 4%nat /\
  exists leaf root' g',
    @QuadTree_init origin_only (S (S fuel)) root 4 Globals_init
      = Some (root', g') /\
    children root' = [Some leaf; None; None; None] /\
    type leaf = LEAF /\
    depth leaf = 1%nat /\
    Rect_eq (rect leaf) (mkRect 0 0 4 4) /\
    childless leaf /\
    allnodes g' = [root'; leaf] /\
    leaves g' = [leaf] /\
    maxdepth g' = 3%nat.
Proof.
  cbn zeta. split; [reflexivity|].
  eexists. eexists. eexists. split; [reflexivity|].
  cbn. repeat split; repeat constructor.
Qed.

(** C2 as stated fails on the maximum depth: it is not 1. *)
Lemma origin_scenario_counterexample :
  exists root' g',
    @QuadTree_init origin_only 2 (Node_init 1 None (mkRect 0 0 8 8)) 4
      Globals_init = Some (root', g') /\
    maxdepth g' <> 1%nat.
Proof.
  eexists. eexists. split; [reflexivity|]. cbn. discriminate.
Qed.

(** C7, amended.  With a predicate that is false everywhere the build
    returns (one level of call stack suffices), the tree is the root
    alone, the root is classified [ROOT], its four slots are absent
    before and after [prune], and [prune] returns 0 and changes
    nothing. *)
Theorem featureless_build_is_root_only (fuel : nat) (m0 minrect : Q)
    (r : Rect) (g : Globals) :
  let root := Node_init m0 None r in
  type root = ROOT /\
  children root = [None; None; None; None] /\
  @subdivide Node_base (S fuel) minrect root = Some root /\
  prune root = (0%nat, root) /\
  preorder root = [root] /\
  exists g',
    @QuadTree_init Node_base (S fuel) root minrect g = Some (root, g') /\
    allnodes g' = allnodes g ++ [root] /\
    leaves g' = leaves g.
Proof.
  cbn zeta. repeat split.
  eexists. split; [reflexivity|].
  cbn. split; reflexivity.
Qed.

(** C7 as stated fails on the classification of the root: it is neither
    [LEAF] nor [BRANCH]. *)
Lemma featureless_root_counterexample :
  exists root' g',
    @QuadTree_init Node_base 1 (Node_init 1 None (mkRect 0 0 8 8)) 4
      Globals_init = Some (root', g') /\
    allnodes g' = [root'] /\
    ~ (type root' = LEAF \/ type root' = BRANCH).
Proof.
  eexists. eexists. split; [reflexivity|]. split; [reflexivity|].
  cbn. intros [H|H]; discriminate H.
Qed.

(** C3, amended.  After a completed build the sequence of all nodes has
    grown by the pre-order listing of the pruned tree, and every node of
    that listing is either a leaf without present children, or a root or
    branch that has a present child exactly when its subtree holds a
    leaf. *)
Theorem build_nodes_settled `{NodeMethods} (fuel : nat) (m0 minrect : Q)
    (r : Rect) (g : Globals) (root' : Node) (g' : Globals) :
  QuadTree_init fuel (Node_init m0 None r) minrect g = Some (root', g') ->
  allnodes g' = allnodes g ++ preorder root' /\
  forall n, n ∈ preorder root' -> settled n.
Proof.
  unfold QuadTree_init. cbn [Node_minsize].
  destruct (subdivide fuel minrect (Node_init m0 None r)) as [root1|] eqn:Hrun;
    [|discriminate].
  intros Hbuild. injection Hbuild as <- <-.
  split; [now rewrite traverse_preorder|].
  apply Forall_forall, prune_settled.
  eapply subdivide_leaves_childless; [exact Hrun|].
  apply Node_init_leaves_childless.
Qed.

Lemma build_nodes_settled_witness :
  exists root' g',
    @QuadTree_init upper_right_only 3 (Node_init 1 None (mkRect 0 0 16 16)) 4
      Globals_init = Some (root', g') /\
    allnodes g' = allnodes Globals_init ++ preorder root' /\
    forall n, n ∈ preorder root' -> settled n.
Proof.
  assert (Hrun : { p | @QuadTree_init upper_right_only 3
                         (Node_init 1 None (mkRect 0 0 16 16)) 4 Globals_init
                       = Some p })
    by (eexists; reflexivity).
  destruct Hrun as [[root' g'] Hrun]. exists root', g'.
  split; [exact Hrun|].
  exact (@build_nodes_settled upper_right_only 3 1 4 (mkRect 0 0 16 16)
           Globals_init root' g' Hrun).
Defined.

(** C3 as stated fails: with the base class predicate the root enters
    the sequence as a [ROOT] without any present child. *)
Lemma build_nodes_counterexample :
  exists root' g',
    @QuadTree_init Node_base 1 (Node_init 1 None (mkRect 0 0 8 8)) 4
      Globals_init = Some (root', g') /\
    exists n,
      n ∈ allnodes g' /\
      ~ ((type n = LEAF /\ childless n) \/
         ((type n = ROOT \/ type n = BRANCH) /\
          exists i c, children n !! i = Some (Some c))).
Proof.
  eexists. eexists. split; [reflexivity|].
  eexists. split; [cbn; apply elem_of_cons; left; reflexivity|].
  cbn. intros [[H _]|[_ (i & c & H)]]; [discriminate H|].
  destruct i as [|[|[|[|i]]]]; discriminate H.
Qed.

(** The slot-order asymmetry in a build: of the three leafless branches
    under the root, those in slots 0 and 1 are removed and the one in
    slot 3, which comes after the leaf-bearing slot 2, stays in the
    tree and in the sequence of all nodes with four absent slots. *)
Example build_asymmetric :
  exists root' g' c2 c3,
    @QuadTree_init upper_right_only 3 (Node_init 1 None (mkRect 0 0 16 16)) 4
      Globals_init = Some (root', g') /\
    children root' = [None; None; Some c2; Some c3] /\
    leaf_count c2 = 4%nat /\
    type c3 = BRANCH /\ leaf_count c3 = 0%nat /\
    children c3 = [None; None; None; None] /\
    c3 ∈ allnodes g'.
Proof.
  eexists. eexists. eexists. eexists.
  split; [reflexivity|]. split; [reflexivity|].
  repeat split.
  cbn. do 6 (apply elem_of_cons; right). apply elem_of_cons; left. reflexivity.
Qed.




(** * Further properties *)

(** ** What one call of [subdivide] does to a node *)

Lemma same_head_refl n : same_head n n.
Proof. repeat split. Qed.

Lemma same_head_trans a b c : same_head a b -> same_head b c -> same_head a c.
Proof. unfold same_head. intros (-> & -> & ->) (-> & -> & ->). repeat split. Qed.

Lemma same_head_set_child self n c : same_head (set_child self n c) self.
Proof. repeat split. Qed.

Lemma getinstance_same_head m s s' q :
  same_head s s' -> getinstance m s q = getinstance m s' q.
Proof. intros (Hd & _ & _). unfold getinstance, Node_init. now rewrite Hd. Qed.

Section SubdivideLoop.
Context `{NodeMethods}.
Variable minsize : Q.
Variable recurse : Node -> option Node.
Variable rects : list Rect.

Lemma subdivide_loop_head ns : forall self t,
  subdivide_loop minsize recurse rects ns self = Some t -> same_head t self.
Proof.
  induction ns as [|n ns IH]; intros self t Hrun; cbn [subdivide_loop] in Hrun.
  - injection Hrun as <-. apply same_head_refl.
  - destruct (rects !! n) as [q|]; [|discriminate].
    destruct (spans_feature self q); [|eauto].
    destruct (recurse (getinstance minsize self q)) as [child|]; [|discriminate].
    eapply same_head_trans; [eapply IH; exact Hrun|apply same_head_set_child].
Qed.

Lemma subdivide_loop_length ns : forall self t,
  subdivide_loop minsize recurse rects ns self = Some t ->
  length (children t) = length (children self).
Proof.
  induction ns as [|n ns IH]; intros self t Hrun; cbn [subdivide_loop] in Hrun.
  - now injection Hrun as <-.
  - destruct (rects !! n) as [q|]; [|discriminate].
    destruct (spans_feature self q); [|eauto].
    destruct (recurse (getinstance minsize self q)) as [child|]; [|discriminate].
    rewrite (IH _ _ Hrun). cbn [set_child children]. apply length_insert.
Qed.

Lemma subdivide_loop_outside ns : forall self t,
  subdivide_loop minsize recurse rects ns self = Some t ->
  forall i, i ∉ ns -> children t !! i = children self !! i.
Proof.
  induction ns as [|n ns IH]; intros self t Hrun i Hi; cbn [subdivide_loop] in Hrun.
  - now injection Hrun as <-.
  - apply not_elem_of_cons in Hi as [Hin Hi].
    destruct (rects !! n) as [q|]; [|discriminate].
    destruct (spans_feature self q); [|eauto].
    destruct (recurse (getinstance minsize self q)) as [child|]; [|discriminate].
    rewrite (IH _ _ Hrun i Hi). cbn [set_child children].
    apply list_lookup_insert_ne. congruence.
Qed.

Lemma subdivide_loop_inside ns :
  NoDup ns ->
  forall self t,
    subdivide_loop minsize recurse rects ns self = Some t ->
    forall i q,
      i ∈ ns -> rects !! i = Some q -> (i < length (children self))%nat ->
      exists s,
        same_head s self /\
        ((spans_feature s q = true /\
          exists c, recurse (getinstance minsize s q) = Some c /\
                    children t !! i = Some (Some c)) \/
         (spans_feature s q = false /\ children t !! i = children self !! i)).
Proof.
  induction 1 as [|n ns Hn Hnd IH]; intros self t Hrun i q Hi Hq Hlt.
  - inversion Hi.
  - cbn [subdivide_loop] in Hrun.
    destruct (rects !! n) as [qn|] eqn:Hqn; [|discriminate].
    destruct (decide (i = n)) as [->|Hne].
    + assert (qn = q) as -> by congruence.
      exists self. split; [apply same_head_refl|].
      destruct (spans_feature self q) eqn:Hspan.
      * destruct (recurse (getinstance minsize self q)) as [child|] eqn:Hc;
          [|discriminate].
        left. split; [reflexivity|]. exists child. split; [reflexivity|].
        rewrite (subdivide_loop_outside _ _ _ Hrun n Hn).
        cbn [set_child children]. now apply list_lookup_insert_eq.
      * right. split; [reflexivity|].
        exact (subdivide_loop_outside _ _ _ Hrun n Hn).
    + apply elem_of_cons in Hi as [Hi|Hi]; [contradiction|].
      destruct (spans_feature self qn).
      * destruct (recurse (getinstance minsize self qn)) as [child|];
          [|discriminate].
        destruct (IH _ _ Hrun i q Hi Hq) as (s & Hs & Hcase).
        { cbn [set_child children]. now rewrite length_insert. }
        exists s. split.
        { eapply same_head_trans; [exact Hs|apply same_head_set_child]. }
        destruct Hcase as [Hyes|[Hno Hsame]]; [left; exact Hyes|right].
        split; [exact Hno|]. rewrite Hsame. cbn [set_child children].
        apply list_lookup_insert_ne. congruence.
      * exact (IH _ _ Hrun i q Hi Hq Hlt).
Qed.

End SubdivideLoop.


Lemma subdivide_head `{NodeMethods} fuel minsize self t :
  subdivide fuel minsize self = Some t -> same_head t self.
Proof.
  destruct fuel as [|fuel]; cbn [subdivide]; [discriminate|].
  destruct (is_leaf (type self)).
  - intros [= <-]. apply same_head_refl.
  - apply subdivide_loop_head.
Qed.



(** ** What [subdivide] guarantees about every node of its result *)

Lemma fresh_lookup n i slot :
  fresh n -> children n !! i = Some slot -> slot = None /\ (i < 4)%nat.
Proof.
  unfold fresh. intros -> Hi.
  destruct i as [|[|[|[|i]]]]; cbn in Hi; try discriminate;
    injection Hi as <-; split; (reflexivity || lia).
Qed.

Lemma fresh_preorder n : fresh n -> preorder n = [n].
Proof. unfold fresh. intros Hn. rewrite preorder_unfold, Hn. reflexivity. Qed.

Lemma quadrants_lookup r i : (i < 4)%nat -> is_Some (quadrants r !! i).
Proof. intros Hi. apply lookup_lt_is_Some. exact Hi. Qed.

Lemma quadrants_lookup_lt r i q : quadrants r !! i = Some q -> (i < 4)%nat.
Proof. intros Hq. apply lookup_lt_Some in Hq. exact Hq. Qed.

Section SubdivideNodes.
Context `{NodeMethods}.
Variable minsize : Q.
Variable P : Node -> Prop.

(** [P] holds of a leaf that was never touched, and of a node on which
    the loop of [subdivide] has run. *)
Hypothesis P_leaf : forall n, fresh n -> type n = LEAF -> P n.
Hypothesis P_node :
  forall self t,
    fresh self -> type self <> LEAF -> same_head t self ->
    length (children t) = 4%nat ->
    (forall i q, quadrants (rect self) !! i = Some q ->
                 slot_outcome minsize self t i q) ->
    P t.

Lemma subdivide_nodes fuel : forall self t,
  subdivide fuel minsize self = Some t ->
  fresh self ->
  Forall P (preorder t).
Proof.
  induction fuel as [|fuel IH]; intros self t Hrun Hfresh;
    cbn [subdivide] in Hrun; [discriminate|].
  destruct (is_leaf (type self)) eqn:Hleaf.
  - injection Hrun as <-. rewrite fresh_preorder by exact Hfresh.
    constructor; [|constructor].
    apply P_leaf; [exact Hfresh|now apply is_leaf_true].
  - apply is_leaf_false in Hleaf. cbn zeta in Hrun.
    change (length (quadrants (rect self))) with 4%nat in Hrun.
    assert (Hlen : length (children self) = 4%nat)
      by (unfold fresh in Hfresh; now rewrite Hfresh).
    assert (Hslot : forall i q,
               quadrants (rect self) !! i = Some q ->
               exists s,
                 same_head s self /\
                 ((spans_feature s q = true /\
                   exists c, subdivide fuel minsize (getinstance minsize s q) = Some c /\
                             children t !! i = Some (Some c)) \/
                  (spans_feature s q = false /\
                   children t !! i = children self !! i))).
    { intros i q Hq.
      apply (subdivide_loop_inside minsize _ _ (seq 0 4) (NoDup_seq 0 4)
               self t Hrun i q); [|exact Hq|].
      - apply elem_of_seq. pose proof (quadrants_lookup_lt _ _ _ Hq). lia.
      - rewrite Hlen. exact (quadrants_lookup_lt _ _ _ Hq). }
    rewrite preorder_unfold. constructor.
    + apply (P_node self t Hfresh Hleaf).
      * eapply subdivide_loop_head; exact Hrun.
      * rewrite (subdivide_loop_length _ _ _ _ _ _ Hrun). exact Hlen.
      * intros i q Hq. destruct (Hslot i q Hq) as (s & Hs & Hcase).
        exists s. split; [exact Hs|].
        destruct Hcase as [(Hyes & c & Hc & Hi)|Hno]; [left|right; exact Hno].
        split; [exact Hyes|]. exists c. split; [|exact Hi].
        eapply subdivide_head; exact Hc.
    + apply Forall_flat_map_lookup. intros i c Hi.
      assert (Hi4 : (i < 4)%nat).
      { apply lookup_lt_Some in Hi.
        rewrite (subdivide_loop_length _ _ _ _ _ _ Hrun) in Hi. lia. }
      destruct (quadrants_lookup (rect self) i Hi4) as [q Hq].
      destruct (Hslot i q Hq) as (s & Hs & [(_ & c' & Hc' & Hi')|(_ & Hi')]).
      * assert (c' = c) as -> by congruence.
        apply (IH _ _ Hc'). reflexivity.
      * rewrite Hi' in Hi. apply (fresh_lookup _ _ _ Hfresh) in Hi as [Hi _].
        discriminate Hi.
Qed.
End SubdivideNodes.

Lemma subdivide_slots_linked `{NodeMethods} fuel minsize self t :
  subdivide fuel minsize self = Some t ->
  fresh self ->
  Forall (slots_linked minsize) (preorder t).
Proof.
  apply subdivide_nodes.
  - intros n Hn Hleaf. unfold slots_linked, childless. rewrite Hn.
    split; [reflexivity|split; [intros _; repeat constructor|]].
    intros i c Hi. destruct i as [|[|[|[|i]]]]; discriminate Hi.
  - intros s t' Hfresh Hty (Hd & Hr & Ht) Hlen Hslots.
    split; [exact Hlen|split; [intros Hleaf; congruence|]].
    intros i c Hi.
    assert (Hi4 : (i < 4)%nat) by (apply lookup_lt_Some in Hi; lia).
    destruct (quadrants_lookup (rect s) i Hi4) as [q Hq].
    exists q. rewrite Hr. split; [exact Hq|].
    destruct (Hslots i q Hq) as (s' & (Hd' & _ & _) & Hcase).
    destruct Hcase as [(_ & c' & (Hcd & Hcr & Hct) & Hi')|(_ & Hi')].
    + assert (c' = c) as -> by congruence.
      cbn in Hcd, Hcr, Hct.
      split; [exact Hcr|split; [|exact Hct]].
      rewrite Hcd, Hd', Hd. apply Nat.add_1_r.
    + rewrite Hi' in Hi. apply (fresh_lookup _ _ _ Hfresh) in Hi as [Hi _].
      discriminate Hi.
Qed.

Lemma subdivide_slots_filled (M : NodeMethods) fuel minsize self t :
  rect_only M ->
  subdivide fuel minsize self = Some t ->
  fresh self ->
  Forall slots_filled (preorder t).
Proof.
  intros Hro. apply subdivide_nodes.
  - intros n _ Hleaf Hnot. contradiction.
  - intros s t' Hfresh Hty (Hd & Hr & Ht) Hlen Hslots _ i q Hq.
    rewrite Hr in Hq.
    destruct (Hslots i q Hq) as (s' & _ & Hcase).
    rewrite (Hro t' s' q).
    destruct Hcase as [(Hyes & c & _ & Hi)|(Hno & Hi)].
    + split; [intros _; exists c; exact Hi|intros _; exact Hyes].
    + split; [congruence|]. intros [c Hc]. rewrite Hi in Hc.
      apply (fresh_lookup _ _ _ Hfresh) in Hc as [Hc _]. discriminate Hc.
Qed.

(** ** Paths *)











(** ** Termination *)








Lemma everywhere_never_returns (minsize : Q) (fuel : nat) : forall self,
  minsize <= 0 ->
  type self <> LEAF ->
  0 < width (rect self) ->
  @subdivide everywhere fuel minsize self = None.
Proof.
  induction fuel as [|fuel IH]; intros self Hm Hty Hw; [reflexivity|].
  cbn [subdivide]. apply is_leaf_false in Hty. rewrite Hty. cbn zeta.
  cbn [length quadrants seq subdivide_loop lookup list_lookup
       spans_feature everywhere].
  rewrite IH; [reflexivity|exact Hm| |].
  - rewrite getinstance_branch; [discriminate|].
    unfold width in *. cbn [x0 x1]. qlra.
  - cbn [getinstance Node_init rect]. unfold width in *. cbn [x0 x1]. qlra.
Qed.

(** X3.  With a minimum size that is zero or negative, a root of
    positive width and a predicate that holds everywhere, [subdivide]
    never returns: every bound on the call stack is exceeded. *)
Theorem subdivide_diverges (fuel : nat) (minsize m0 : Q) (r : Rect) :
  minsize <= 0 ->
  0 < width r ->
  @subdivide everywhere fuel minsize (Node_init m0 None r) = None.
Proof.
  intros Hm Hw. apply everywhere_never_returns;
    [exact Hm|discriminate|exact Hw].
Qed.

Lemma subdivide_diverges_witness :
  0 <= 0 /\
  0 < width (mkRect 0 0 8 8) /\
  @subdivide everywhere 50 0 (Node_init 1 None (mkRect 0 0 8 8)) = None.
Proof.
  assert (H1 : 0 <= 0) by lra.
  assert (H2 : 0 < width (mkRect 0 0 8 8)) by (unfold width; cbn; lra).
  split; [exact H1|split; [exact H2|]].
  exact (subdivide_diverges 50 0 1 (mkRect 0 0 8 8) H1 H2).
Defined.

(** ** The shape of the tree that [subdivide] builds *)

(** X4.  In the tree that [subdivide] builds from a fresh node, every
    node has four slots, a leaf has none of them filled, and a child in
    slot [i] has the [i]-th quadrant of its parent as rectangle, is one
    level deeper, and is a leaf exactly when that quadrant is at most
    the minimum size wide. *)
Theorem subdivide_links_children `{NodeMethods} (fuel : nat) (minsize : Q)
    (self t : Node) :
  fresh self ->
  subdivide fuel minsize self = Some t ->
  forall n, n ∈ preorder t -> slots_linked minsize n.
Proof.
  intros Hfresh Hrun. apply Forall_forall.
  eapply subdivide_slots_linked; eassumption.
Qed.

Lemma subdivide_links_children_witness :
  fresh (Node_init 1 None (mkRect 0 0 16 16)) /\
  exists t,
    @subdivide upper_right_only 3 4 (Node_init 1 None (mkRect 0 0 16 16))
      = Some t /\
    forall n, n ∈ preorder t -> slots_linked 4 n.
Proof.
  assert (H1 : fresh (Node_init 1 None (mkRect 0 0 16 16))) by reflexivity.
  split; [exact H1|].
  assert (Hrun : { t | @subdivide upper_right_only 3 4
                         (Node_init 1 None (mkRect 0 0 16 16)) = Some t })
    by (eexists; reflexivity).
  destruct Hrun as [t Hrun]. exists t. split; [exact Hrun|].
  exact (@subdivide_links_children upper_right_only 3 4 _ t H1 Hrun).
Defined.

(** X5.  When the feature predicate looks at the rectangle only, the
    tree that [subdivide] builds from a fresh node has, at every node
    that is not a leaf, a child in exactly those slots whose quadrant
    spans a feature: no node is created for a quadrant without one, and
    none is missing for a quadrant with one. *)
Theorem subdivide_fills_feature_slots (M : NodeMethods) (fuel : nat)
    (minsize : Q) (self t : Node) :
  rect_only M ->
  fresh self ->
  subdivide fuel minsize self = Some t ->
  forall n, n ∈ preorder t -> slots_filled n.
Proof.
  intros Hro Hfresh Hrun. apply Forall_forall.
  eapply subdivide_slots_filled; eassumption.
Qed.

Lemma subdivide_fills_feature_slots_witness :
  rect_only upper_right_only /\
  fresh (Node_init 1 None (mkRect 0 0 16 16)) /\
  exists t,
    @subdivide upper_right_only 3 4 (Node_init 1 None (mkRect 0 0 16 16))
      = Some t /\
    forall n, n ∈ preorder t -> @slots_filled upper_right_only n.
Proof.
  assert (H0 : rect_only upper_right_only) by (intros s s' r; reflexivity).
  assert (H1 : fresh (Node_init 1 None (mkRect 0 0 16 16))) by reflexivity.
  split; [exact H0|split; [exact H1|]].
  assert (Hrun : { t | @subdivide upper_right_only 3 4
                         (Node_init 1 None (mkRect 0 0 16 16)) = Some t })
    by (eexists; reflexivity).
  destruct Hrun as [t Hrun]. exists t. split; [exact Hrun|].
  exact (subdivide_fills_feature_slots upper_right_only 3 4 _ t H0 H1 Hrun).
Defined.






(** ** More about [prune] *)

Lemma Node_ext (a b : Node) :
  depth a = depth b -> rect a = rect b -> type a = type b ->
  children a = children b -> a = b.
Proof. destruct a, b; cbn; intros -> -> -> ->; reflexivity. Qed.

Lemma prune_same_head n : same_head (snd (prune n)) n.
Proof. split; [apply prune_depth|split; [apply prune_rect|apply prune_type]]. Qed.

Lemma cum_prune_count_lookup_ext cs cs' i :
  (forall j, prune_count <$> cs' !! j = prune_count <$> cs !! j) ->
  cum_prune_count cs' i = cum_prune_count cs i.
Proof.
  intros Hext. unfold cum_prune_count.
  apply sum_list_with_lookup_ext. intros j.
  destruct (decide (j < S i)%nat) as [Hlt|Hge].
  - rewrite !lookup_take_lt by exact Hlt. apply Hext.
  - rewrite !lookup_take_ge by lia. reflexivity.
Qed.

Lemma prune_fst n :
  is_leaf (type n) = false ->
  fst (prune n) = sum_list_with prune_count (children n).
Proof. intros Hleaf. now rewrite prune_branch. Qed.

(** The counts that a second [prune] sees in the slots are those of the
    first. *)
Lemma pruned_slot_counts n :
  is_leaf (type n) = false ->
  Forall (on_present (fun c => prune (snd (prune c)) = prune c)) (children n) ->
  forall i,
    prune_count <$> children (snd (prune n)) !! i =
    prune_count <$> children n !! i.
Proof.
  intros Hleaf IH i. rewrite prune_children_lookup by exact Hleaf.
  destruct (children n !! i) as [[c|]|] eqn:Hi; try reflexivity.
  destruct (Nat.eqb_spec (cum_prune_count (children n) i) 0) as [Hz|_]; cbn.
  - pose proof (cum_count_ge prune_count _ i i _ (le_n i) Hi) as Hle.
    fold (cum_prune_count (children n) i) in Hle. cbn [prune_count] in Hle.
    f_equal. lia.
  - pose proof (Forall_lookup_1 _ _ _ _ IH Hi) as IHc; cbn in IHc.
    now rewrite IHc.
Qed.

(** X8.  [prune] is idempotent: on a tree that was pruned, a second
    call returns the same count and removes nothing. *)
Theorem prune_idempotent (n : Node) : prune (snd (prune n)) = prune n.
Proof.
  induction n as [d r t cs IH] using Node_tree_ind.
  destruct (is_leaf t) eqn:Hleaf.
  - apply is_leaf_true in Hleaf.
    rewrite (prune_leaf (mkNode d r t cs)) by exact Hleaf. cbn [snd].
    now apply prune_leaf.
  - set (n := mkNode d r t cs) in *.
    assert (Hleaf' : is_leaf (type (snd (prune n))) = false)
      by (now rewrite prune_type).
    pose proof (pruned_slot_counts n Hleaf IH) as Hcounts.
    apply injective_projections.
    + rewrite (prune_fst _ Hleaf'), (prune_fst n Hleaf).
      apply sum_list_with_lookup_ext. exact Hcounts.
    + apply Node_ext; [apply prune_depth|apply prune_rect|apply prune_type|].
      apply list_eq. intros i.
      rewrite (prune_children_lookup _ i Hleaf').
      rewrite (cum_prune_count_lookup_ext (children n) _ i Hcounts).
      rewrite (prune_children_lookup n i Hleaf).
      destruct (children n !! i) as [[c|]|] eqn:Hi; try reflexivity.
      destruct (Nat.eqb_spec (cum_prune_count (children n) i) 0) as [Hz|Hnz];
        [reflexivity|].
      pose proof (Forall_lookup_1 _ _ _ _ IH Hi) as IHc; cbn in IHc.
      now rewrite IHc.
Qed.

(** X9.  [prune] never creates or moves a node: a node found in the
    pruned tree is found at the same place in the tree before, with the
    same depth, rectangle and classification. *)
Theorem prune_only_removes (path : list nat) (t n' : Node) :
  subnode path (snd (prune t)) = Some n' ->
  exists n, subnode path t = Some n /\ same_head n' n.
Proof.
  revert t. induction path as [|i path IH]; intros t Hsub; cbn [subnode] in *.
  - injection Hsub as <-. exists t. split; [reflexivity|apply prune_same_head].
  - destruct (is_leaf (type t)) eqn:Hleaf.
    + apply is_leaf_true in Hleaf. rewrite prune_leaf in Hsub by exact Hleaf.
      cbn [snd] in Hsub.
      destruct (children t !! i) as [[c|]|]; try discriminate.
      exists n'. split; [exact Hsub|apply same_head_refl].
    + rewrite prune_children_lookup in Hsub by exact Hleaf.
      destruct (children t !! i) as [[c|]|]; try discriminate.
      destruct (cum_prune_count (children t) i =? 0)%nat; [discriminate|].
      now apply IH.
Qed.

Lemma prune_only_removes_witness :
  subnode [3%nat] (snd (prune asymmetric_example))
    = Some (bare BRANCH [None; None; None; None]) /\
  exists n, subnode [3%nat] asymmetric_example = Some n /\
            same_head (bare BRANCH [None; None; None; None]) n.
Proof.
  assert (H1 : subnode [3%nat] (snd (prune asymmetric_example))
               = Some (bare BRANCH [None; None; None; None])) by reflexivity.
  split; [exact H1|].
  exact (prune_only_removes [3%nat] asymmetric_example _ H1).
Defined.

Lemma leaf_nodes_flat_map cs :
  leaf_nodes (flat_map slot_preorder cs) =
  flat_map (fun slot => leaf_nodes (slot_preorder slot)) cs.
Proof.
  induction cs as [|slot cs IH]; [reflexivity|].
  cbn [flat_map]. now rewrite leaf_nodes_app, IH.
Qed.

Lemma flat_map_lookup_ext {A B} (f : A -> list B) (l1 : list A) :
  forall l2,
    (forall i, f <$> l1 !! i = f <$> l2 !! i) ->
    flat_map f l1 = flat_map f l2.
Proof.
  induction l1 as [|a l1 IH]; intros [|b l2] Hext.
  - reflexivity.
  - specialize (Hext 0%nat); discriminate Hext.
  - specialize (Hext 0%nat); discriminate Hext.
  - cbn [flat_map]. f_equal.
    + specialize (Hext 0%nat). now injection Hext.
    + apply IH. intros i. exact (Hext (S i)).
Qed.

Lemma leaf_count_0 c : leaf_count c = 0%nat -> leaf_nodes (preorder c) = [].
Proof. unfold leaf_count. apply nil_length_inv. Qed.

(** Under the invariant [prune] keeps the leaves themselves, in their
    order. *)
Lemma prune_preserves_leaves n :
  leaves_childless n ->
  leaf_nodes (preorder (snd (prune n))) = leaf_nodes (preorder n).
Proof.
  induction n as [d r t cs IH] using Node_tree_ind; intros Hwf.
  destruct (is_leaf t) eqn:Hleaf.
  - apply is_leaf_true in Hleaf. now rewrite prune_leaf.
  - set (n := mkNode d r t cs) in *.
    rewrite (preorder_unfold (snd (prune n))), (preorder_unfold n).
    change (?x :: ?l) with ([x] ++ l). rewrite !leaf_nodes_app. f_equal.
    + unfold leaf_nodes; cbn [List.filter]. rewrite prune_type.
      cbn [type n]. now rewrite Hleaf.
    + rewrite !leaf_nodes_flat_map. apply flat_map_lookup_ext. intros i.
      rewrite prune_children_lookup by exact Hleaf.
      pose proof (leaves_childless_children _ Hwf) as Hcs.
      destruct (children n !! i) as [[c|]|] eqn:Hi; try reflexivity.
      pose proof (Forall_lookup_1 _ _ _ _ Hcs Hi) as Hc; cbn in Hc.
      pose proof (Forall_lookup_1 _ _ _ _ IH Hi) as IHc; cbn in IHc.
      destruct (Nat.eqb_spec (cum_prune_count (children n) i) 0) as [Hz|_]; cbn.
      * pose proof (cum_count_ge prune_count _ i i _ (le_n i) Hi) as Hle.
        fold (cum_prune_count (children n) i) in Hle. cbn [prune_count] in Hle.
        fold (leaf_nodes (preorder c)).
        rewrite leaf_count_0; [reflexivity|].
        rewrite <- (prune_leaf_count c Hc). lia.
      * fold (leaf_nodes (preorder (snd (prune c)))).
        fold (leaf_nodes (preorder c)). now rewrite IHc.
Qed.

Lemma fresh_leaves_childless n : fresh n -> leaves_childless n.
Proof.
  intros Hn. unfold leaves_childless. rewrite (fresh_preorder _ Hn).
  constructor; [|constructor]. intros _. unfold childless. rewrite Hn.
  repeat constructor.
Qed.

Lemma QuadTree_init_effect `{NodeMethods} fuel rootnode minrect g root' g' :
  QuadTree_init fuel rootnode minrect g = Some (root', g') ->
  exists t,
    subdivide fuel minrect rootnode = Some t /\
    root' = snd (prune t) /\
    g' = after_traverse (preorder root')
           (mkGlobals minrect (maxdepth g) (leaves g) (allnodes g)).
Proof.
  unfold QuadTree_init. cbn [Node_minsize].
  destruct (subdivide fuel minrect rootnode) as [t|]; [|discriminate].
  intros Hbuild. injection Hbuild as <- <-.
  exists t. split; [reflexivity|split; [reflexivity|]].
  apply traverse_preorder.
Qed.

(** X10.  The leaves that a build reports are the leaves that
    [subdivide] created, in pre-order: [prune] has no effect on the
    sequence of leaves. *)
Theorem build_reports_all_leaves `{NodeMethods} (fuel : nat) (rootnode : Node)
    (minrect : Q) (g : Globals) (root' : Node) (g' : Globals) :
  fresh rootnode ->
  QuadTree_init fuel rootnode minrect g = Some (root', g') ->
  exists t,
    subdivide fuel minrect rootnode = Some t /\
    leaves g' = leaves g ++ leaf_nodes (preorder t).
Proof.
  intros Hfresh Hbuild.
  destruct (QuadTree_init_effect _ _ _ _ _ _ Hbuild) as (t & Hrun & -> & ->).
  exists t. split; [exact Hrun|].
  unfold after_traverse; cbn [leaves]. f_equal.
  apply prune_preserves_leaves.
  eapply subdivide_leaves_childless; [exact Hrun|].
  now apply fresh_leaves_childless.
Qed.

Lemma build_reports_all_leaves_witness :
  fresh (Node_init 1 None (mkRect 0 0 16 16)) /\
  exists root' g',
    @QuadTree_init upper_right_only 3 (Node_init 1 None (mkRect 0 0 16 16)) 4
      Globals_init = Some (root', g') /\
    exists t,
      @subdivide upper_right_only 3 4 (Node_init 1 None (mkRect 0 0 16 16))
        = Some t /\
      leaves g' = leaves Globals_init ++ leaf_nodes (preorder t).
Proof.
  assert (H1 : fresh (Node_init 1 None (mkRect 0 0 16 16))) by reflexivity.
  split; [exact H1|].
  assert (Hrun : { p | @QuadTree_init upper_right_only 3
                         (Node_init 1 None (mkRect 0 0 16 16)) 4 Globals_init
                       = Some p })
    by (eexists; reflexivity).
  destruct Hrun as [[root' g'] Hrun]. exists root', g'.
  split; [exact Hrun|].
  exact (@build_reports_all_leaves upper_right_only 3 _ 4 Globals_init
           root' g' H1 Hrun).
Defined.

(** ** The class attributes across traversals and builds *)

Lemma fold_raise_maxdepth l : forall m,
  fold_left raise_maxdepth l m =
  Nat.max m (list_max (depth <$> leaf_nodes l)).
Proof.
  induction l as [|a l IH]; intros m; cbn [fold_left].
  - cbn. lia.
  - rewrite IH. unfold raise_maxdepth, leaf_nodes. cbn [List.filter].
    destruct (is_leaf (type a)); [|reflexivity].
    rewrite fmap_cons.
    change (list_max (depth a :: ?l')) with (Nat.max (depth a) (list_max l')).
    destruct (Nat.ltb_spec m (depth a)); lia.
Qed.

(** X11.  After [traverse] the maximum depth is the larger of its value
    before and the greatest depth of a leaf of the traversed tree: it
    never decreases, and it stays at its old value when no leaf is
    deeper. *)
Theorem traverse_maxdepth (node : Node) (g : Globals) :
  maxdepth (traverse node g) =
  Nat.max (maxdepth g) (list_max (depth <$> leaf_nodes (preorder node))).
Proof.
  rewrite traverse_preorder. unfold after_traverse; cbn [maxdepth].
  apply fold_raise_maxdepth.
Qed.

Lemma after_traverse_consistent l g :
  consistent g -> consistent (after_traverse l g).
Proof.
  intros [Hl Hd]. unfold consistent, after_traverse.
  cbn [leaves allnodes maxdepth]. split.
  - now rewrite leaf_nodes_app, Hl.
  - rewrite fold_raise_maxdepth. apply Forall_app. split.
    + eapply Forall_impl; [exact Hd|]. cbn. intros n Hn. lia.
    + apply Forall_forall. intros n Hn.
      assert (Hle : (depth n <= list_max (depth <$> leaf_nodes l))%nat).
      { pose proof (proj1 (list_max_le (depth <$> leaf_nodes l) _) (le_n _))
          as Hall.
        rewrite List.Forall_forall in Hall. apply Hall.
        apply list_elem_of_In, list_elem_of_fmap. exists n. split; [reflexivity|exact Hn]. }
      lia.
Qed.

(** X12.  The class attributes stay consistent from build to build:
    starting from the values at load time, after every completed build
    the sequence of leaves consists of the [LEAF] nodes of the sequence
    of all nodes, in the same order, and the maximum depth is at least
    the depth of each of them. *)
Theorem build_keeps_consistent :
  consistent Globals_init /\
  forall (M : NodeMethods) (fuel : nat) (rootnode : Node) (minrect : Q)
         (g : Globals) (root' : Node) (g' : Globals),
    consistent g ->
    QuadTree_init fuel rootnode minrect g = Some (root', g') ->
    consistent g'.
Proof.
  split; [split; [reflexivity|constructor]|].
  intros M fuel rootnode minrect g root' g' Hg Hbuild.
  destruct (QuadTree_init_effect _ _ _ _ _ _ Hbuild) as (t & _ & _ & ->).
  apply after_traverse_consistent. exact Hg.
Qed.

Lemma build_keeps_consistent_witness :
  consistent Globals_init /\
  exists root' g',
    @QuadTree_init upper_right_only 3 (Node_init 1 None (mkRect 0 0 16 16)) 4
      Globals_init = Some (root', g') /\
    consistent g'.
Proof.
  assert (H1 : consistent Globals_init) by exact (proj1 build_keeps_consistent).
  split; [exact H1|].
  assert (Hrun : { p | @QuadTree_init upper_right_only 3
                         (Node_init 1 None (mkRect 0 0 16 16)) 4 Globals_init
                       = Some p })
    by (eexists; reflexivity).
  destruct Hrun as [[root' g'] Hrun]. exists root', g'.
  split; [exact Hrun|].
  exact (proj2 build_keeps_consistent upper_right_only 3%nat _ 4 Globals_init
           root' g' H1 Hrun).
Defined.

(** X13.  The sequences are shared by all builds: a second build
    appends its nodes and leaves behind those of the first, overwrites
    the minimum size with its own, and does not lower the maximum
    depth. *)
Theorem two_builds_accumulate (M1 M2 : NodeMethods) (fuel1 fuel2 : nat)
    (rootnode1 rootnode2 : Node) (minrect1 minrect2 : Q)
    (g : Globals) (root1 root2 : Node) (g1 g2 : Globals) :
  @QuadTree_init M1 fuel1 rootnode1 minrect1 g = Some (root1, g1) ->
  @QuadTree_init M2 fuel2 rootnode2 minrect2 g1 = Some (root2, g2) ->
  allnodes g2 = allnodes g ++ preorder root1 ++ preorder root2 /\
  leaves g2 =
    leaves g ++ leaf_nodes (preorder root1) ++ leaf_nodes (preorder root2) /\
  Node_minsize g2 = minrect2 /\
  (maxdepth g <= maxdepth g1 <= maxdepth g2)%nat.
Proof.
  intros Hb1 Hb2.
  destruct (QuadTree_init_effect _ _ _ _ _ _ Hb1) as (t1 & _ & _ & ->).
  destruct (QuadTree_init_effect _ _ _ _ _ _ Hb2) as (t2 & _ & _ & ->).
  unfold after_traverse; cbn [allnodes leaves Node_minsize maxdepth].
  rewrite <- !app_assoc, !fold_raise_maxdepth.
  repeat split; lia.
Qed.

Lemma two_builds_accumulate_witness :
  exists root1 g1 root2 g2,
    @QuadTree_init origin_only 2 (Node_init 1 None (mkRect 0 0 8 8)) 4
      Globals_init = Some (root1, g1) /\
    @QuadTree_init everywhere 2 (Node_init 4 None (mkRect 0 0 4 4)) 2 g1
      = Some (root2, g2) /\
    allnodes g2 = allnodes Globals_init ++ preorder root1 ++ preorder root2 /\
    leaves g2 =
      leaves Globals_init ++ leaf_nodes (preorder root1)
        ++ leaf_nodes (preorder root2) /\
    Node_minsize g2 = 2 /\
    (maxdepth Globals_init <= maxdepth g1 <= maxdepth g2)%nat.
Proof.
  assert (Hb1 : { p | @QuadTree_init origin_only 2
                        (Node_init 1 None (mkRect 0 0 8 8)) 4 Globals_init
                      = Some p })
    by (eexists; reflexivity).
  destruct Hb1 as [[root1 g1] Hb1].
  assert (Hb2 : { p | @QuadTree_init everywhere 2
                        (Node_init 4 None (mkRect 0 0 4 4)) 2 g1 = Some p }).
  { injection Hb1 as <- <-. eexists; reflexivity. }
  destruct Hb2 as [[root2 g2] Hb2].
  exists root1, g1, root2, g2.
  split; [exact Hb1|split; [exact Hb2|]].
  exact (two_builds_accumulate origin_only everywhere 2 2 _ _ 4 2
           Globals_init root1 root2 g1 g2 Hb1 Hb2).
Defined.

(** ** Quadrants and [contains] *)

Lemma contains_in_rect n x z :
  contains n x z = true <-> in_rect (rect n) x z.
Proof.
  unfold contains, in_rect. rewrite <- !Qle_bool_iff.
  destruct (Qle_bool (x0 (rect n)) x), (Qle_bool x (x1 (rect n))),
    (Qle_bool (z0 (rect n)) z), (Qle_bool z (z1 (rect n)));
    cbn; intuition congruence.
Qed.

Lemma elem_of_quadrants r q :
  q ∈ quadrants r ->
  exists i, (i < 4)%nat /\ quadrants r !! i = Some q.
Proof.
  intros Hq. apply list_elem_of_lookup in Hq as [i Hi].
  exists i. split; [exact (quadrants_lookup_lt _ _ _ Hi)|exact Hi].
Qed.

(** X14.  On a node with a square rectangle, [contains] holds for a
    point exactly when it holds on the child that [getinstance] makes
    for at least one of the four quadrants: the quadrants cover the
    parent and do not reach outside it. *)
Theorem quadrants_cover_parent (minsize : Q) (self : Node) (x z : Q) :
  square (rect self) ->
  (contains self x z = true <->
   exists q, q ∈ quadrants (rect self) /\
             contains (getinstance minsize self q) x z = true).
Proof.
  intros [Hw Hh]. unfold width, height in Hw, Hh. split.
  - intros Hin. apply contains_in_rect in Hin.
    destruct Hin as [[Hx0 Hx1] [Hz0 Hz1]].
    set (h := (x1 (rect self) - x0 (rect self)) / 2).
    destruct (Qlt_le_dec x (x0 (rect self) + h)) as [Hxl|Hxr];
      destruct (Qlt_le_dec z (z0 (rect self) + h)) as [Hzl|Hzr].
    + exists (mkRect (x0 (rect self)) (z0 (rect self))
                (x0 (rect self) + h) (z0 (rect self) + h)).
      split; [apply (list_elem_of_lookup_2 _ 0%nat); reflexivity|].
      apply contains_in_rect. unfold in_rect; cbn. repeat split; lra.
    + exists (mkRect (x0 (rect self)) (z0 (rect self) + h)
                (x0 (rect self) + h) (z1 (rect self))).
      split; [apply (list_elem_of_lookup_2 _ 1%nat); reflexivity|].
      apply contains_in_rect. unfold in_rect; cbn. repeat split; lra.
    + exists (mkRect (x0 (rect self) + h) (z0 (rect self))
                (x1 (rect self)) (z0 (rect self) + h)).
      split; [apply (list_elem_of_lookup_2 _ 3%nat); reflexivity|].
      apply contains_in_rect. unfold in_rect; cbn. repeat split; lra.
    + exists (mkRect (x0 (rect self) + h) (z0 (rect self) + h)
                (x1 (rect self)) (z1 (rect self))).
      split; [apply (list_elem_of_lookup_2 _ 2%nat); reflexivity|].
      apply contains_in_rect. unfold in_rect; cbn. repeat split; lra.
  - intros (q & Hq & Hin). apply contains_in_rect in Hin.
    apply contains_in_rect.
    apply elem_of_quadrants in Hq as (i & Hi & Hq).
    destruct i as [|[|[|[|i]]]]; try lia;
      cbn in Hq; injection Hq as <-;
      unfold in_rect in *; cbn [getinstance Node_init rect x0 x1 z0 z1] in *;
      repeat split; qlra.
Qed.

Lemma quadrants_cover_parent_witness :
  square (rect (Node_init 1 None (mkRect 0 0 8 8))) /\
  (contains (Node_init 1 None (mkRect 0 0 8 8)) 4 4 = true <->
   exists q, q ∈ quadrants (rect (Node_init 1 None (mkRect 0 0 8 8))) /\
             contains (getinstance 4 (Node_init 1 None (mkRect 0 0 8 8)) q) 4 4
               = true).
Proof.
  assert (H1 : square (rect (Node_init 1 None (mkRect 0 0 8 8))))
    by (unfold square, width, height; cbn; split; lra).
  split; [exact H1|].
  exact (quadrants_cover_parent 4 (Node_init 1 None (mkRect 0 0 8 8)) 4 4 H1).
Defined.

(** X15.  [contains] does not partition a square: two different
    quadrants can both contain a point, and then the point lies on one
    of the two lines through the middle of the parent. *)
Theorem quadrants_overlap_on_midlines (minsize : Q) (self : Node)
    (i j : nat) (q q' : Rect) (x z : Q) :
  square (rect self) ->
  i <> j ->
  quadrants (rect self) !! i = Some q ->
  quadrants (rect self) !! j = Some q' ->
  contains (getinstance minsize self q) x z = true ->
  contains (getinstance minsize self q') x z = true ->
  x == x0 (rect self) + (x1 (rect self) - x0 (rect self)) / 2 \/
  z == z0 (rect self) + (x1 (rect self) - x0 (rect self)) / 2.
Proof.
  intros [Hw Hh] Hij Hq Hq' Hin Hin'. unfold width, height in Hw, Hh.
  apply contains_in_rect in Hin, Hin'.
  pose proof (quadrants_lookup_lt _ _ _ Hq) as Hi.
  pose proof (quadrants_lookup_lt _ _ _ Hq') as Hj.
  destruct i as [|[|[|[|i]]]]; try lia;
    destruct j as [|[|[|[|j]]]]; try lia;
    cbn in Hq, Hq'; injection Hq as <-; injection Hq' as <-;
    unfold in_rect in *; cbn [getinstance Node_init rect x0 x1 z0 z1] in *;
    first [left; qlra | right; qlra].
Qed.

Lemma quadrants_overlap_on_midlines_witness :
  square (rect (Node_init 1 None (mkRect 0 0 8 8))) /\
  0%nat <> 2%nat /\
  quadrants (rect (Node_init 1 None (mkRect 0 0 8 8))) !! 0%nat
    = Some (mkRect 0 0 (0 + (8 - 0) / 2) (0 + (8 - 0) / 2)) /\
  quadrants (rect (Node_init 1 None (mkRect 0 0 8 8))) !! 2%nat
    = Some (mkRect (0 + (8 - 0) / 2) (0 + (8 - 0) / 2) 8 8) /\
  contains (getinstance 4 (Node_init 1 None (mkRect 0 0 8 8))
              (mkRect 0 0 (0 + (8 - 0) / 2) (0 + (8 - 0) / 2))) 4 4 = true /\
  contains (getinstance 4 (Node_init 1 None (mkRect 0 0 8 8))
              (mkRect (0 + (8 - 0) / 2) (0 + (8 - 0) / 2) 8 8)) 4 4 = true /\
  (4 == 0 + (8 - 0) / 2 \/ 4 == 0 + (8 - 0) / 2).
Proof.
  assert (H1 : square (rect (Node_init 1 None (mkRect 0 0 8 8))))
    by (unfold square, width, height; cbn; split; lra).
  assert (H2 : 0%nat <> 2%nat) by lia.
  assert (H3 : quadrants (rect (Node_init 1 None (mkRect 0 0 8 8))) !! 0%nat
               = Some (mkRect 0 0 (0 + (8 - 0) / 2) (0 + (8 - 0) / 2)))
    by reflexivity.
  assert (H4 : quadrants (rect (Node_init 1 None (mkRect 0 0 8 8))) !! 2%nat
               = Some (mkRect (0 + (8 - 0) / 2) (0 + (8 - 0) / 2) 8 8))
    by reflexivity.
  assert (H5 : contains (getinstance 4 (Node_init 1 None (mkRect 0 0 8 8))
                 (mkRect 0 0 (0 + (8 - 0) / 2) (0 + (8 - 0) / 2))) 4 4 = true)
    by reflexivity.
  assert (H6 : contains (getinstance 4 (Node_init 1 None (mkRect 0 0 8 8))
                 (mkRect (0 + (8 - 0) / 2) (0 + (8 - 0) / 2) 8 8)) 4 4 = true)
    by reflexivity.
  split; [exact H1|split; [exact H2|split; [exact H3|split; [exact H4|
    split; [exact H5|split; [exact H6|]]]]]].
  exact (quadrants_overlap_on_midlines 4 (Node_init 1 None (mkRect 0 0 8 8))
           0 2 _ _ 4 4 H1 H2 H3 H4 H5 H6).
Defined.

(** ** Leaves of a root whose side is a power of two times the minimum size *)




